(** * VectorFieldPlot: the field-line tracer of [plot/vfp.py]

    A shallow embedding of the parts of [vfp.py] that the specification's
    testable properties speak about: the math kernel ([vabs], [angle_dif],
    [cel], [list_interpolate]), the [Field] aggregator with its point-source
    evaluators, the node bookkeeping of [FieldLine] ([_is_loop],
    [_create_nodes], [get_position], [_out_of_bounds]) and the constructor of
    [Startpath]; and, beside them, [rot], the angle helpers [cosv] and
    [sinv], the integrator's Runge-Kutta step [_rkstep] and pole search
    [_get_nearest_pole], the bending estimate [_bending] and the methods
    [_dstartpath] and [_field_along_path] of [Startpath].

    Numbers.  The program computes with Python floats (IEEE binary64).  The
    embedding is written once over the operations the source applies to its
    numbers (class [Arith]) and is read at two instances:
    - [binary64]: Rocq's primitive floats, on which every definition
      evaluates; concrete runs of the code are checked there;
    - [exact]: the real numbers, i.e. the arithmetic the formulas of the
      specification denote; laws that rest on the field and order axioms
      (rounding is not analysed in this development) are proved there.

    Python exceptions are values of [exn]; a function that can raise returns
    a [result].  What the properties do not depend on enters as a parameter:
    the evaluators of the extended sources ([extended]), the integrator
    [_create_nodes_part], scipy's [interp1d] and [Startpath._make_spline]. *)

From Stdlib Require Import ZArith List Sorted String Bool Lia.
From Stdlib Require Import Floats.
From Stdlib Require Import Reals Lra Psatz.
Import ListNotations.

(* Decimal literals of the source that are not binary64 values denote the
   nearest float, as in Python. *)
Set Warnings "-inexact-float".

Local Open Scope Z_scope.

(* ================================================================= *)
(** ** Exceptions and results *)

Inductive exn : Type :=
| ZeroDivisionError
| ValueError
| OverflowError
| KeyError
| TypeError
| IndexError
| AssertionError
| AttributeError
| UserError (tag : string).   (* raised inside a user callback *)

Inductive result (A : Type) : Type :=
| Ok (a : A)
| Raise (e : exn).
Arguments Ok {A} a.
Arguments Raise {A} e.

Definition bind {A B : Type} (c : result A) (k : A -> result B) : result B :=
  match c with
  | Ok a => k a
  | Raise e => Raise e
  end.

Declare Scope py_scope.
Delimit Scope py_scope with py.
Notation "x <- c ;; k" := (bind c (fun x => k))
  (at level 61, c at next level, right associativity) : py_scope.
Notation "' pat <- c ;; k" := (bind c (fun x => match x with pat => k end))
  (at level 61, pat pattern, c at next level, right associativity) : py_scope.
Local Open Scope py_scope.

(** Python indexing [l[i]], a negative index counting from the end. *)
Definition py_index {A : Type} (l : list A) (i : Z) : result A :=
  let n := Z.of_nat (List.length l) in
  let j := if i <? 0 then n + i else i in
  if (j <? 0) || (n <=? j) then Raise IndexError
  else match nth_error l (Z.to_nat j) with
       | Some a => Ok a
       | None => Raise IndexError
       end.

(* ================================================================= *)
(** ** The arithmetic of the program *)

(** The operations [vfp.py] applies to numbers.  [ndiv], [nsqrt] and [nmod]
    are the machine operations; the Python-level checks in front of them
    ([ZeroDivisionError], [ValueError]) are written out in [py_div],
    [py_sqrt] below. *)
Class Arith (num : Type) : Type := {
  lit    : Z -> num;                  (* an integer literal, [int] to [float] *)
  nadd   : num -> num -> num;
  nsub   : num -> num -> num;
  nmul   : num -> num -> num;
  ndiv   : num -> num -> num;
  nopp   : num -> num;
  nabs   : num -> num;                (* math.fabs *)
  neqb   : num -> num -> bool;        (* == *)
  nltb   : num -> num -> bool;        (* <  *)
  nleb   : num -> num -> bool;        (* <= *)
  nsqrt  : num -> num;                (* math.sqrt, argument not negative *)
  nhypot : num -> num -> num;         (* math.hypot *)
  npi    : num;                       (* math.pi *)
  nmod   : num -> num -> num;         (* float %, divisor not zero *)
  nfloor : num -> result Z;           (* math.floor *)
  nisinf : num -> bool                (* math.isinf *)
}.

Declare Scope num_scope.
Delimit Scope num_scope with num.
Notation "x + y" := (nadd x y) : num_scope.
Notation "x - y" := (nsub x y) : num_scope.
Notation "x * y" := (nmul x y) : num_scope.
Notation "x / y" := (ndiv x y) : num_scope.
Notation "- x" := (nopp x) : num_scope.
Notation "x == y" := (neqb x y) (at level 70, no associativity) : num_scope.
Notation "x != y" := (negb (neqb x y)) (at level 70, no associativity) : num_scope.
Notation "x <? y" := (nltb x y) : num_scope.
Notation "x <=? y" := (nleb x y) : num_scope.
Notation "x >? y" := (nltb y x) : num_scope.
Notation "x >=? y" := (nleb y x) : num_scope.

(* ----------------------------------------------------------------- *)
(** *** binary64 *)

Module Binary64.

(** [int] to [float]: the nearest binary64 value. *)
Definition of_Z (z : Z) : float :=
  SF2Prim (binary_normalize prec emax z 0 false).

(** C [fmod]: the exact remainder of the truncated division, with the
    sign of [x]. *)
Definition fmod (x y : float) : float :=
  match Prim2SF x, Prim2SF y with
  | S754_nan, _ | _, S754_nan => nan
  | S754_infinity _, _ => nan
  | _, S754_zero _ => nan
  | S754_zero _, _ => x
  | _, S754_infinity _ => x
  | S754_finite sx mx ex, S754_finite _ my ey =>
      let e := Z.min ex ey in
      let X := Z.pos mx * 2 ^ (ex - e) in
      let Y := Z.pos my * 2 ^ (ey - e) in
      SF2Prim (binary_normalize prec emax (cond_Zopp sx (X mod Y)) e sx)
  end.

(** CPython's [float_rem], the [%] of two floats (divisor not zero):
    [fmod] moved to the sign of the divisor. *)
Definition float_rem (vx wx : float) : float :=
  let m := fmod vx wx in
  if PrimFloat.eqb m 0 then
    (if PrimFloat.ltb wx 0 then (-0)%float else 0%float)  (* copysign(0.0, wx) *)
  else if is_nan m then m
  else if xorb (PrimFloat.ltb wx 0) (PrimFloat.ltb m 0)
       then (m + wx)%float else m.

(** [math.floor]. *)
Definition floor (x : float) : result Z :=
  match Prim2SF x with
  | S754_zero _ => Ok 0
  | S754_finite s m e =>
      Ok (if 0 <=? e then cond_Zopp s (Z.pos m) * 2 ^ e
          else cond_Zopp s (Z.pos m) / 2 ^ (- e))
  | S754_infinity _ => Raise OverflowError
  | S754_nan => Raise ValueError
  end.

(** [math.hypot].  The routine is not pinned down to the last bit (its
    result may be one unit in the last place off the rounded root, and it
    avoids the overflow of the squares); this is its defining formula, with
    the value it has at an infinity.  The formula is exact wherever this
    development evaluates it. *)
Definition hypot (x y : float) : float :=
  if is_infinity x || is_infinity y then infinity
  else PrimFloat.sqrt (x * x + y * y)%float.

Definition pi : float := 0x1.921fb54442d18p+1%float.

(** A number in the sense of the specification: not an infinity, not NaN. *)
Definition finite (x : float) : bool :=
  match Prim2SF x with
  | S754_zero _ | S754_finite _ _ _ => true
  | _ => false
  end.

End Binary64.

#[export] Instance binary64 : Arith float := {
  lit    := Binary64.of_Z;
  nadd   := PrimFloat.add;
  nsub   := PrimFloat.sub;
  nmul   := PrimFloat.mul;
  ndiv   := PrimFloat.div;
  nopp   := PrimFloat.opp;
  nabs   := PrimFloat.abs;
  neqb   := PrimFloat.eqb;
  nltb   := PrimFloat.ltb;
  nleb   := PrimFloat.leb;
  nsqrt  := PrimFloat.sqrt;
  nhypot := Binary64.hypot;
  npi    := Binary64.pi;
  nmod   := Binary64.float_rem;
  nfloor := Binary64.floor;
  nisinf := is_infinity
}.

(* ----------------------------------------------------------------- *)
(** *** exact arithmetic *)

Module Exact.

Definition eqb (x y : R) : bool := if Req_dec_T x y then true else false.
Definition ltb (x y : R) : bool := if Rlt_dec x y then true else false.
Definition leb (x y : R) : bool := if Rle_dec x y then true else false.

(** [x % y = x - y * floor (x / y)]: the remainder with the sign of [y]. *)
Definition rem (x y : R) : R := (x - y * IZR (Int_part (x / y)))%R.

Definition hypot (x y : R) : R := sqrt (x * x + y * y)%R.

End Exact.

#[export] Instance exact : Arith R := {
  lit    := IZR;
  nadd   := Rplus;
  nsub   := Rminus;
  nmul   := Rmult;
  ndiv   := Rdiv;
  nopp   := Ropp;
  nabs   := Rabs;
  neqb   := Exact.eqb;
  nltb   := Exact.ltb;
  nleb   := Exact.leb;
  nsqrt  := sqrt;
  nhypot := Exact.hypot;
  npi    := PI;
  nmod   := Exact.rem;
  nfloor := fun x => Ok (Int_part x);
  nisinf := fun _ => false
}.

(* ================================================================= *)
(** ** The program, over any arithmetic *)

Section Program.

Context {num : Type} `{Arith num}.
Local Open Scope num_scope.

(** A decimal literal: [dec m k] is [m e-k].  Both [m] and [10^k] are
    binary64 values in every literal of the source, so the one rounded
    division gives the float nearest to the decimal, as Python's parser
    does. *)
Definition dec (m k : Z) : num := lit m / lit (10 ^ k).

(** *** Python arithmetic

    [math.hypot], the parameters of an element and all literals are Python
    floats: their [/] raises on a zero divisor and their [**] raises on
    overflow.  The components of an [ndarray] are [numpy.float64] scalars:
    an expression with such an operand follows IEEE and does not raise
    (written [/] and [powi] below).  A power with an integer exponent is
    C's [pow], which repeated multiplication matches up to rounding. *)
Definition py_div (x y : num) : result num :=
  if y == lit 0 then Raise ZeroDivisionError else Ok (x / y).

Definition py_sqrt (x : num) : result num :=
  if x <? lit 0 then Raise ValueError else Ok (nsqrt x).

Fixpoint powi (x : num) (n : nat) : num :=
  match n with
  | O => lit 1
  | S n' => powi x n' * x
  end.

Definition py_pow (x : num) (n : nat) : result num :=
  let r := powi x n in
  if nisinf r && negb (nisinf x) then Raise OverflowError else Ok r.

(** The builtin [max] keeps its first argument unless a later one is
    greater. *)
Definition py_max (a b : num) : num := if b >? a then b else a.

(** *** Vectors: [ndarray]s of shape (2,) *)
Definition vec : Type := (num * num)%type.
Definition zeros2 : vec := (lit 0, lit 0).
Definition vadd (u v : vec) : vec := (fst u + fst v, snd u + snd v).
Definition vsub (u v : vec) : vec := (fst u - fst v, snd u - snd v).
Definition vneg (u : vec) : vec := (- fst u, - snd u).
Definition vscale (s : num) (u : vec) : vec := (s * fst u, s * snd u).
Definition vdivs (u : vec) (s : num) : vec := (fst u / s, snd u / s).

(** *** Math kernel (vfp.py, lines 38-150) *)

Definition vabs (x : vec) : num := nhypot (fst x) (snd x).

Definition vnorm (x : vec) : vec :=
  let d := nhypot (fst x) (snd x) in
  if d != lit 0 then (fst x / d, snd x / d) else x.

(** [angle_dif] (line 89).  The divisor [2. * pi] is a non-zero
    constant. *)
Definition angle_dif (a1 a2 : num) : num :=
  nmod (a2 - a1 + npi) (lit 2 * npi) - npi.

(* --------------------------------------------------------------- *)
(** *** Field (lines 1556-2202) *)

(** A value stored in a parameter dict: a number, a callback (['f'] and
    ['F'] hold one that returns an [ndarray], ['V'] one that returns a
    number; a callback of the other kind under a key counts as a type
    error), or something else. *)
Inductive pyval : Type :=
| VNum (x : num)
| VVecFun (f : vec -> result vec)      (* a callback returning an ndarray *)
| VScalFun (f : vec -> result num)     (* a callback returning a number *)
| VOther.                              (* any other object *)

Definition params : Type := list (string * pyval).
Definition element : Type := (string * params)%type.   (* [kind, {...}] *)

Fixpoint lookup (par : params) (key : string) : option pyval :=
  match par with
  | [] => None
  | (k, v) :: rest => if String.eqb k key then Some v else lookup rest key
  end.

Definition has_key (par : params) (key : string) : bool :=
  match lookup par key with Some _ => true | None => false end.

(** [par[key]] used as a number. *)
Definition getnum (par : params) (key : string) : result num :=
  match lookup par key with
  | None => Raise KeyError
  | Some (VNum x) => Ok x
  | Some _ => Raise TypeError
  end.

(** [par[key](xy)] used as a vector, resp. as a number. *)
Definition call_vec (par : params) (key : string) (xy : vec) : result vec :=
  match lookup par key with
  | None => Raise KeyError
  | Some (VVecFun f) => f xy
  | Some _ => Raise TypeError
  end.

Definition call_scal (par : params) (key : string) (xy : vec) : result num :=
  match lookup par key with
  | None => Raise KeyError
  | Some (VScalFun f) => f xy
  | Some _ => Raise TypeError
  end.

Record Field : Type := mkField { elements : list element }.

(** **** Evaluators of the point-like sources (lines 1707-1780,
    2051-2087) *)

Definition F_homogeneous (xy : vec) (Fx Fy : num) : result vec :=
  Ok (Fx, Fy).

Definition F_monopole (xy : vec) (x y Q : num) : result vec :=
  let r0 := fst xy - x in
  let r1 := snd xy - y in
  let d := nhypot r0 r1 in
  if d != lit 0 then
    d3 <- py_pow d 3 ;;
    pre <- py_div Q (lit 4 * npi * d3) ;;
    Ok (pre * r0, pre * r1)
  else Ok zeros2.

Definition F_dipole (xy : vec) (x y px py : num) : result vec :=
  let r0 := fst xy - x in
  let r1 := snd xy - y in
  let d := nhypot r0 r1 in
  let rp := r0 * px + r1 * py in
  if d != lit 0 then
    d5 <- py_pow d 5 ;;
    pre <- py_div (dec 25 2) (npi * d5) ;;
    Ok (pre * (lit 3 * rp * r0 - d * d * px),
        pre * (lit 3 * rp * r1 - d * d * py))
  else
    (* unphysical sign allows line to pass through *)
    Ok (px, py).

Definition F_dipole2d (xy : vec) (x y px py : num) : result vec :=
  let r0 := fst xy - x in
  let r1 := snd xy - y in
  let rr := r0 * r0 + r1 * r1 in
  let rp := r0 * px + r1 * py in
  if rr != lit 0 then
    let pre := dec 5 1 / (npi * rr * rr) in
    Ok (pre * (lit 2 * rp * r0 - rr * px),
        pre * (lit 2 * rp * r1 - rr * py))
  else Ok (px, py).

Definition F_quadrupole (xy : vec) (x y Qxx Qxy Qyy : num) : result vec :=
  let r0 := fst xy - x in
  let r1 := snd xy - y in
  let d := nhypot r0 r1 in
  if d == lit 0 then Ok zeros2
  else
    let Qr0 := Qxx * r0 + Qxy * r1 in
    let Qr1 := Qxy * r0 + Qyy * r1 in
    let rQr := r0 * Qr0 + r1 * Qr1 in
    d7 <- py_pow d 7 ;;
    pre <- py_div (dec 25 2) (npi * d7) ;;
    Ok (pre * (dec 25 1 * rQr * r0 - d * d * Qr0),
        pre * (dec 25 1 * rQr * r1 - d * d * Qr1)).

Definition F_wire (xy : vec) (x y I : num) : result vec :=
  let r0 := fst xy - x in
  let r1 := snd xy - y in
  let rr := r0 * r0 + r1 * r1 in
  if rr == lit 0 then Ok zeros2
  else
    let pre := I / (lit 2 * npi * rr) in
    Ok (- r1 * pre, r0 * pre).

Definition F_charged_wire (xy : vec) (x y q : num) : result vec :=
  let r0 := fst xy - x in
  let r1 := snd xy - y in
  let rr := r0 * r0 + r1 * r1 in
  if rr == lit 0 then Ok zeros2
  else
    let pre := q / (lit 2 * npi * rr) in
    Ok (pre * r0, pre * r1).

Definition V_potential (xy : vec) (V : num) : result num := Ok V.

Definition V_homogeneous (xy : vec) (Fx Fy : num) : result num :=
  Ok (- fst xy * Fx - snd xy * Fy).

Definition V_monopole (xy : vec) (x y Q : num) : result num :=
  let d := py_max (dec 1 16) (nhypot (fst xy - x) (snd xy - y)) in
  py_div Q (lit 4 * npi * d).

Definition V_dipole (xy : vec) (x y px py : num) : result num :=
  let r0 := fst xy - x in
  let r1 := snd xy - y in
  let d := nhypot r0 r1 in
  if d == lit 0 then Ok (lit 0)
  else d3 <- py_pow d 3 ;; Ok ((r0 * px + r1 * py) / (lit 4 * npi * d3)).

Definition V_dipole2d (xy : vec) (x y px py : num) : result num :=
  let r0 := fst xy - x in
  let r1 := snd xy - y in
  let rr := r0 * r0 + r1 * r1 in
  if rr == lit 0 then Ok (lit 0)
  else Ok ((r0 * px + r1 * py) / (lit 2 * npi * rr)).

Definition V_quadrupole (xy : vec) (x y Qxx Qxy Qyy : num) : result num :=
  let r0 := fst xy - x in
  let r1 := snd xy - y in
  let d := nhypot r0 r1 in
  if d == lit 0 then Ok (lit 0)
  else
    let rQr := Qxx * powi r0 2 + lit 2 * Qxy * r0 * r1 + Qyy * powi r1 2 in
    d5 <- py_pow d 5 ;; Ok (rQr / (lit 8 * npi * d5)).

(** **** Evaluators of the extended sources

    The evaluators of lines, planes, rectangles, discs, sheets, rings and
    coils are built from [log], [atan], [atanh], [cos], [sin], [cel] and a
    numerical quadrature.  No property below depends on their values: they
    enter as a parameter, each a function of the point and of the
    element's numbers that returns a value or raises. *)
Record extended : Type := {
  F_charged_line  : vec -> num -> num -> num -> num -> num -> result vec;
  F_charged_plane : vec -> num -> num -> num -> num -> num -> result vec;
  F_charged_rect  : vec -> num -> num -> num -> num -> num -> num -> result vec;
  F_charged_disc  : vec -> num -> num -> num -> num -> num -> result vec;
  F_sheetcurrent  : vec -> num -> num -> num -> num -> num -> result vec;
  F_ringcurrent   : vec -> num -> num -> num -> num -> num -> result vec;
  F_coil          : vec -> num -> num -> num -> num -> num -> num -> result vec;
  V_charged_wire  : vec -> num -> num -> num -> result num;
  V_charged_line  : vec -> num -> num -> num -> num -> num -> result num;
  V_charged_plane : vec -> num -> num -> num -> num -> num -> result num;
  V_charged_rect  : vec -> num -> num -> num -> num -> num -> num -> result num;
  V_charged_disc  : vec -> num -> num -> num -> num -> num -> result num
}.

Variable ext : extended.

(** **** Dispatch on the element kind *)

Definition call2 {A} (par : params) (k1 k2 : string)
    (f : num -> num -> result A) : result A :=
  a <- getnum par k1 ;; b <- getnum par k2 ;; f a b.
Definition call3 {A} (par : params) (k1 k2 k3 : string)
    (f : num -> num -> num -> result A) : result A :=
  a <- getnum par k1 ;; call2 par k2 k3 (f a).
Definition call4 {A} (par : params) (k1 k2 k3 k4 : string)
    (f : num -> num -> num -> num -> result A) : result A :=
  a <- getnum par k1 ;; call3 par k2 k3 k4 (f a).
Definition call5 {A} (par : params) (k1 k2 k3 k4 k5 : string)
    (f : num -> num -> num -> num -> num -> result A) : result A :=
  a <- getnum par k1 ;; call4 par k2 k3 k4 k5 (f a).
Definition call6 {A} (par : params) (k1 k2 k3 k4 k5 k6 : string)
    (f : num -> num -> num -> num -> num -> num -> result A) : result A :=
  a <- getnum par k1 ;; call5 par k2 k3 k4 k5 k6 (f a).

Definition some {A} (c : result A) : result (option A) :=
  a <- c ;; Ok (Some a).

Local Notation "k 'is' s" := (String.eqb k s%string) (at level 70).

(** What one pass of the loop of [Field.V] adds to [Vsum]: [Ok None] where
    the source only prints a warning. *)
Definition V_term (el : element) (xy : vec) : result (option num) :=
  let '(kind, par) := el in
  if kind is "potential" then
    v <- getnum par "V" ;; some (V_potential xy v)
  else if kind is "homogeneous" then
    some (call2 par "Fx" "Fy" (V_homogeneous xy))
  else if kind is "monopole" then
    some (call3 par "x" "y" "Q" (V_monopole xy))
  else if kind is "dipole" then
    some (call4 par "x" "y" "px" "py" (V_dipole xy))
  else if kind is "dipole2d" then
    some (call4 par "x" "y" "px" "py" (V_dipole2d xy))
  else if kind is "quadrupole" then
    some (call5 par "x" "y" "Qxx" "Qxy" "Qyy" (V_quadrupole xy))
  else if kind is "charged_wire" then
    some (call3 par "x" "y" "q" (V_charged_wire ext xy))
  else if kind is "charged_line" then
    some (call5 par "x0" "y0" "x1" "y1" "Q" (V_charged_line ext xy))
  else if kind is "charged_plane" then
    some (call5 par "x0" "y0" "x1" "y1" "q" (V_charged_plane ext xy))
  else if kind is "charged_rect" then
    some (call6 par "x0" "y0" "x1" "y1" "Lz" "Q" (V_charged_rect ext xy))
  else if kind is "charged_disc" then
    some (call5 par "x0" "y0" "x1" "y1" "Q" (V_charged_disc ext xy))
  else if (kind is "custom") && has_key par "V" then
    some (call_scal par "V" xy)
  else Ok None.

(** [Field.V] (line 2006): an element whose evaluation raises is skipped
    ([except Exception]; the traceback it prints is not modelled). *)
Definition V_step (xy : vec) (Vsum : num) (el : element) : num :=
  match V_term el xy with
  | Ok (Some v) => Vsum + v
  | _ => Vsum
  end.

Definition V (self : Field) (xy : vec) : num :=
  fold_left (V_step xy) (elements self) (lit 0).

(** What one pass of the loop of [Field.F] adds to [Fxy].  The branch of a
    custom element given by its potential differentiates [self.V], the
    potential of the whole field. *)
Definition F_term (self : Field) (el : element) (xy : vec)
    : result (option vec) :=
  let '(kind, par) := el in
  if kind is "homogeneous" then
    some (call2 par "Fx" "Fy" (F_homogeneous xy))
  else if kind is "monopole" then
    some (call3 par "x" "y" "Q" (F_monopole xy))
  else if kind is "dipole" then
    some (call4 par "x" "y" "px" "py" (F_dipole xy))
  else if kind is "dipole2d" then
    some (call4 par "x" "y" "px" "py" (F_dipole2d xy))
  else if kind is "quadrupole" then
    some (call5 par "x" "y" "Qxx" "Qxy" "Qyy" (F_quadrupole xy))
  else if kind is "wire" then
    some (call3 par "x" "y" "I" (F_wire xy))
  else if kind is "charged_wire" then
    some (call3 par "x" "y" "q" (F_charged_wire xy))
  else if kind is "charged_line" then
    some (call5 par "x0" "y0" "x1" "y1" "Q" (F_charged_line ext xy))
  else if kind is "charged_plane" then
    some (call5 par "x0" "y0" "x1" "y1" "q" (F_charged_plane ext xy))
  else if kind is "charged_rect" then
    some (call6 par "x0" "y0" "x1" "y1" "Lz" "Q" (F_charged_rect ext xy))
  else if kind is "charged_disc" then
    some (call5 par "x0" "y0" "x1" "y1" "Q" (F_charged_disc ext xy))
  else if kind is "sheetcurrent" then
    some (call5 par "x0" "y0" "x1" "y1" "I" (F_sheetcurrent ext xy))
  else if kind is "ringcurrent" then
    some (call5 par "x" "y" "phi" "R" "I" (F_ringcurrent ext xy))
  else if kind is "coil" then
    some (call6 par "x" "y" "phi" "R" "Lhalf" "I" (F_coil ext xy))
  else if kind is "custom" then
    if has_key par "f" then some (call_vec par "f" xy)
    else if has_key par "F" then some (call_vec par "F" xy)
    else if has_key par "V" then
      (* numerically compute field from potential *)
      let d := dec 1 6 in
      let Fpotx := (V self (vsub xy (d, lit 0)) - V self (vadd xy (d, lit 0)))
                   / (lit 2 * d) in
      let Fpoty := (V self (vsub xy (lit 0, d)) - V self (vadd xy (lit 0, d)))
                   / (lit 2 * d) in
      Ok (Some (Fpotx, Fpoty))
    else Ok None
  else Ok None.

Definition F_step (self : Field) (xy : vec) (Fxy : vec) (el : element) : vec :=
  match F_term self el xy with
  | Ok (Some v) => vadd Fxy v
  | _ => Fxy
  end.

(** [Field.F] (line 1632): the elements are visited in order, each one
    adding to the accumulator [Fxy]; one whose evaluation raises is
    skipped. *)
Definition F (self : Field) (xy : vec) : vec :=
  fold_left (F_step self xy) (elements self) zeros2.

(** [Field.Fn] (line 1696). *)
Definition Fn (self : Field) (xy : vec) : vec :=
  let force := F self xy in
  let d := vabs force in
  if d != lit 0 then vdivs force d else zeros2.

(** **** Construction (lines 1561-1629) *)

(** An entry of the deprecated dict form: a tuple of numbers, or the
    callback of ['custom']. *)
Inductive oldentry : Type :=
| OTuple (xs : list num)
| OFun (f : vec -> result vec).

Definition item (l : oldentry) (i : Z) : result pyval :=
  match l with
  | OTuple xs => x <- py_index xs i ;; Ok (VNum x)
  | OFun _ => Raise TypeError
  end.

Fixpoint items (l : oldentry) (keys : list string) (i : Z) : result params :=
  match keys with
  | [] => Ok []
  | k :: rest => v <- item l i ;; par <- items l rest (i + 1)%Z ;; Ok ((k, v) :: par)
  end.

Definition convert_entry (t : string) (l : oldentry) : result (option element) :=
  let el (kind : string) (keys : list string) : result (option element) :=
    par <- items l keys 0%Z ;; Ok (Some (kind, par)) in
  if t is "homogeneous" then el "homogeneous"%string ["Fx"; "Fy"]%string
  else if t is "monopoles" then el "monopole"%string ["x"; "y"; "Q"]%string
  else if t is "dipoles" then el "dipole"%string ["x"; "y"; "px"; "py"]%string
  else if t is "quadrupoles" then
    par <- items l ["x"; "y"; "Qxx"; "Qyy"]%string 0%Z ;;
    Ok (Some ("quadrupole"%string, par ++ [("Qxy"%string, VNum (lit 0))]))
  else if t is "wires" then el "wire"%string ["x"; "y"; "I"]%string
  else if t is "charged_wires" then el "charged_wire"%string ["x"; "y"; "q"]%string
  else if t is "charged_planes" then
    el "charged_plane"%string ["x0"; "y0"; "x1"; "y1"; "q"]%string
  else if t is "charged_lines" then
    el "charged_line"%string ["x0"; "y0"; "x1"; "y1"; "Q"]%string
  else if t is "charged_discs" then
    el "charged_disc"%string ["x0"; "y0"; "x1"; "y1"; "Q"]%string
  else if t is "ringcurrents" then
    el "ringcurrent"%string ["x"; "y"; "phi"; "R"; "I"]%string
  else if t is "coils" then
    el "coil"%string ["x"; "y"; "phi"; "R"; "Lhalf"; "I"]%string
  else if t is "custom" then
    Ok (Some ("custom"%string,
              [("f"%string, match l with OFun f => VVecFun f | OTuple _ => VOther end)]))
  else Ok None.

Fixpoint convert_list (t : string) (it : list oldentry) : result (list element) :=
  match it with
  | [] => Ok []
  | l :: rest =>
      el <- convert_entry t l ;;
      els <- convert_list t rest ;;
      Ok (match el with Some e => e :: els | None => els end)
  end.

Fixpoint convert_oldstyle_dict (dct : list (string * list oldentry))
    : result (list element) :=
  match dct with
  | [] => Ok []
  | (t, it) :: rest =>
      a <- convert_list t it ;;
      b <- convert_oldstyle_dict rest ;;
      Ok (a ++ b)
  end.

(** The argument of [Field(...)]: a list, a dict, or anything else. *)
Inductive pyarg : Type :=
| ArgList (l : list element)
| ArgDict (dct : list (string * list oldentry))
| ArgOther.

(** [Field.__init__].  The closing sanity check ([el] a [str], [par] a
    [dict]) holds of every [element] by its type. *)
Definition Field_init (elems : pyarg) : result Field :=
  els <- match elems with
         | ArgList l => Ok l
         | ArgDict dct => convert_oldstyle_dict dct
         | ArgOther => Ok []
         end ;;
  Ok (mkField els).

(* --------------------------------------------------------------- *)
(** *** FieldLine (lines 945-1552) *)

(** A node of a field line: a dict with the keys ['p'], ['v_in'],
    ['v_out'] and, once the line is finished, ['corner'] and ['t'].  The
    tangents may hold [None]; [node_corner] and [node_t] are [None] while
    the key is absent. *)
Record Node : Type := mkNode {
  node_p      : vec;
  node_v_in   : option vec;
  node_v_out  : option vec;
  node_corner : option bool;
  node_t      : option num
}.

Definition set_t (n : Node) (t : num) : Node :=
  mkNode (node_p n) (node_v_in n) (node_v_out n) (node_corner n) (Some t).

Definition set_v_out (n : Node) (v : option vec) : Node :=
  mkNode (node_p n) (node_v_in n) v (node_corner n) (node_t n).

(** [node['t']] *)
Definition get_t (n : Node) : result num :=
  match node_t n with Some t => Ok t | None => Raise KeyError end.

Definition len {A : Type} (l : list A) : Z := Z.of_nat (List.length l).

(** The [for] loop of [_is_loop], entered with the running [length] and
    the node before [rest]. *)
Fixpoint loop_scan (length : num) (prev : Node) (rest : list Node) : bool :=
  match rest with
  | [] => false
  | n :: rest' =>
      let length := length + vabs (vsub (node_p n) (node_p prev)) in
      if length >? dec 5 3 then true else loop_scan length n rest'
  end.

(** [FieldLine._is_loop] (line 1265). *)
Definition _is_loop (nodes : list Node) (path_close_tol : num) : result bool :=
  first <- py_index nodes 0 ;;
  last <- py_index nodes (-1) ;;
  if vabs (vsub (node_p first) (node_p last)) >? py_max (dec 5 4) path_close_tol
  then Ok false
  else Ok (loop_scan (lit 0) first (tl nodes)).

(** The integrator [_create_nodes_part] (adaptive Runge-Kutta steps, pole
    and corner handling, Brent's root finder) is a parameter here: given
    [self.first_point] and the [sign], it returns its node list. *)
Variable _create_nodes_part : vec -> num -> result (list Node).

(** Reversal of the backward part: the tangents swap and change sign. *)
Definition turn (n : Node) : Node :=
  mkNode (node_p n)
         (option_map vneg (node_v_out n))
         (option_map vneg (node_v_in n))
         (node_corner n) (node_t n).

(** [nodes[-1]['v_out'] = v] *)
Fixpoint set_last_v_out (nodes : list Node) (v : option vec) : result (list Node) :=
  match nodes with
  | [] => Raise IndexError
  | [n] => Ok [set_v_out n v]
  | n :: rest => rest' <- set_last_v_out rest v ;; Ok (n :: rest')
  end.

(** The first two loops at the end of [_create_nodes]: the cumulated
    length of the polygon through the nodes. *)
Fixpoint cumulate (t_prev : num) (p_prev : vec) (rest : list Node) : list Node :=
  match rest with
  | [] => []
  | n :: rest' =>
      let t := t_prev + vabs (vsub p_prev (node_p n)) in
      set_t n t :: cumulate t (node_p n) rest'
  end.

Definition add_lengths (nodes : list Node) : result (list Node) :=
  match nodes with
  | [] => Raise IndexError
  | n0 :: rest => Ok (set_t n0 (lit 0) :: cumulate (lit 0) (node_p n0) rest)
  end.

(** [for i in range(1, len(nodes)): nodes[i]['t'] /= length], on the nodes
    from index 1 on. *)
Fixpoint divide_t (length : num) (l : list Node) : result (list Node) :=
  match l with
  | [] => Ok []
  | n :: l' =>
      t <- get_t n ;;
      r <- divide_t length l' ;;
      Ok (set_t n (t / length) :: r)
  end.

(** [length = nodes[-1]['t']; if length != 0.: ...] *)
Definition normalise (nodes : list Node) : result (list Node) :=
  last <- py_index nodes (-1) ;;
  length <- get_t last ;;
  if length != lit 0 then
    match nodes with
    | [] => Ok []
    | n0 :: rest => rest' <- divide_t length rest ;; Ok (n0 :: rest')
    end
  else Ok nodes.

Definition tag_corner (n : Node) : Node :=
  match node_corner n with
  | Some _ => n
  | None => mkNode (node_p n) (node_v_in n) (node_v_out n) (Some false) (node_t n)
  end.

(** The closing part of [_create_nodes], from [# append accumulated
    normalized sum] on. *)
Definition finish (nodes : list Node) : result (list Node) :=
  nodes <- add_lengths nodes ;;
  nodes <- normalise nodes ;;
  Ok (map tag_corner nodes).

(** [FieldLine._create_nodes] (line 1276). *)
Definition _create_nodes (p_start : vec) (directions : string)
    (path_close_tol : num) : result (list Node) :=
  nodes <-
    (if String.eqb directions "forward" then
       _create_nodes_part p_start (lit 1)
     else
       nodes1 <- _create_nodes_part p_start (- lit 1) ;;
       let nodes := map turn (rev nodes1) in
       let first_point :=
         match nodes with n0 :: _ => node_p n0 | [] => p_start end in
       if negb (String.eqb directions "backward") then
         loop <- _is_loop nodes path_close_tol ;;
         if negb loop then
           nodes2 <- _create_nodes_part first_point (lit 1) ;;
           n20 <- py_index nodes2 0 ;;
           nodes <- set_last_v_out nodes (node_v_out n20) ;;
           Ok (nodes ++ tl nodes2)
         else Ok nodes
       else Ok nodes) ;;
  finish nodes.

(** [scipy.interpolate.interp1d(l, range(len(l)), kind='linear')(t)]: the
    library's piecewise linear interpolant, a parameter. *)
Variable interp1d : list num -> list Z -> num -> result num.

(** [list_interpolate] (line 139). *)
Definition list_interpolate (l : list num) (t : num) : result (Z * num) :=
  l0 <- py_index l 0 ;;
  '(idx, frac) <-
    (if t <? l0 then Ok (0%Z, lit 0)
     else
       l_last <- py_index l (-1) ;;
       if t >? l_last then Ok ((len l - 1)%Z, lit 0)
       else
         n <- interp1d l (map Z.of_nat (seq 0 (List.length l))) t ;;
         idx <- nfloor n ;;
         Ok (idx, n - lit idx)) ;;
  if ((0 <? idx)%Z && (len l - 1 <=? idx)%Z)%bool
  then Ok ((len l - 2)%Z, frac + lit idx - lit (len l - 2))
  else Ok (idx, frac).

Fixpoint all_t (nodes : list Node) : result (list num) :=
  match nodes with
  | [] => Ok []
  | n :: rest => t <- get_t n ;; ts <- all_t rest ;; Ok (t :: ts)
  end.

(** An operand that must not be [None]. *)
Definition operand (v : option vec) : result vec :=
  match v with Some v => Ok v | None => Raise TypeError end.

(** [FieldLine.get_position] (line 1322), the dense output routine,
    reading [self.nodes]. *)
Definition get_position (nodes : list Node) (t : num) : result vec :=
  if (len nodes =? 1)%Z then
    n0 <- py_index nodes 0 ;; Ok (node_p n0)
  else if (len nodes <=? 0)%Z then Ok zeros2
  else
    let t := if t != lit 1 then nmod t (lit 1) else t in
    ts <- all_t nodes ;;
    '(n, p) <- list_interpolate ts t ;;
    nd0 <- py_index nodes n ;;
    nd1 <- py_index nodes (n + 1)%Z ;;
    let p0 := node_p nd0 in
    let p1 := node_p nd1 in
    (* cubic bezier interpolation (hermite interpolation) *)
    let q := lit 1 - p in
    v0 <- operand (node_v_out nd0) ;;
    v1 <- operand (node_v_in nd1) ;;
    Ok (vadd (vadd (vscale q p0) (vscale p p1))
             (vscale (p * q)
                (vadd (vscale (p - q) (vsub p1 p0))
                      (vsub (vscale q v0) (vscale p v1))))).

(** The image bounds: a dict with the keys ['x0'], ['y0'], ['x1'], ['y1']. *)
Record Bounds : Type := mkBounds {
  b_x0 : num; b_y0 : num; b_x1 : num; b_y1 : num
}.

(** [FieldLine._out_of_bounds] (line 1462), reading [self.bounds_func].
    [**2] is taken of [numpy.float64] scalars here. *)
Definition _out_of_bounds (bounds_func : option (vec -> result num))
    (p : vec) (bounds : option Bounds) : result num :=
  positive <-
    match bounds_func with
    | Some f => s <- f p ;; Ok (if s >? lit 0 then Some s else None)
    | None => Ok None
    end ;;
  match positive with
  | Some s => Ok s
  | None =>
      match bounds with
      | None => Ok (- lit 1)
      | Some b =>
          if (fst p <? b_x0 b) || (snd p <? b_y0 b)
             || (fst p >? b_x1 b) || (snd p >? b_y1 b)
          then
            py_sqrt (powi (fst p - b_x0 b) 2 + powi (snd p - b_y0 b) 2
                     + powi (b_x1 b - fst p) 2 + powi (b_y1 b - snd p) 2)
          else
            Ok (py_max (py_max (py_max (b_x0 b - fst p) (b_y0 b - snd p))
                               (fst p - b_x1 b))
                       (snd p - b_y1 b))
      end
  end.

(* --------------------------------------------------------------- *)
(** *** Startpath (lines 2205-2222) *)

(** The value of the path function: an [ndarray] with its shape. *)
Record ndarray : Type := mkArray { shape : list nat; data : list num }.

Definition shape_is_2 (a : ndarray) : bool :=
  match shape a with
  | [2%nat] => true
  | _ => false
  end.

(** The argument [func]: a callable, or any other object. *)
Inductive pyfunc : Type :=
| Callable (f : num -> result ndarray)
| NotCallable.

(** [_make_spline] samples the path and the field and fits a spline with
    scipy; it is a parameter, called with the attributes set so far. *)
Variable Spline : Type.
Variable _make_spline :
  option (num -> result ndarray) -> num -> num -> Field -> num ->
  option (num -> result num) -> result Spline.

Record Startpath : Type := mkStartpath {
  startpath : option (num -> result ndarray);
  sp_t0 : num;
  sp_t1 : num;
  sp_field : Field;
  sp_Fmax : num;
  sp_F_rescale : option (num -> result num);
  spline : Spline
}.

(** What [Startpath.__init__] does, in order. *)
Inductive event : Type :=
| CallFunc (t : num)      (* func(t0) *)
| MakeSpline.             (* self._make_spline() *)

(** [Startpath.__init__]: the events of the run and its outcome. *)
Definition Startpath_init (field : Field) (func : pyfunc) (t0 t1 Fmax : num)
    (F_rescale : option (num -> result num))
    : list event * result Startpath :=
  let rest (log : list event) (sp : option (num -> result ndarray)) :=
    if t1 >? t0 then
      (log ++ [MakeSpline],
       s <- _make_spline sp t0 t1 field Fmax F_rescale ;;
       Ok (mkStartpath sp t0 t1 field Fmax F_rescale s))
    else (log, Raise AssertionError) in
  match func with
  | Callable f =>
      match f t0 with
      | Raise e => ([CallFunc t0], Raise e)
      | Ok p0 =>
          if shape_is_2 p0 then rest [CallFunc t0] (Some f)
          else ([CallFunc t0], Raise AssertionError)
      end
  | NotCallable => rest [] None
  end.

End Program.

(* ================================================================= *)
(** ** Bulirsch's complete elliptic integral, in binary64 (lines 93-136)

    [cel] returns [float('nan')], a value of binary64 only: it is embedded
    at that instance.  Its arguments are Python floats, so [/] and
    [math.sqrt] raise where Python's do. *)

Section Cel.

Local Open Scope num_scope.

(** The variables the [while] loop updates. *)
Record cel_state : Type := mkCel {
  cel_a : float; cel_b : float; cel_p : float;
  cel_k : float; cel_kc : float; cel_m : float;
  cel_i : Z
}.

Definition tol : float := dec 1 9.

(** One pass through the body of [while True]; [true] when it leaves by
    [break]. *)
Definition cel_round (s : cel_state) : result (cel_state * bool) :=
  let '(mkCel a b p k kc m i) := s in
  let f := a in
  x <- py_div b p ;;
  let a := a + x in
  g <- py_div k p ;;
  let b := lit 2 * (b + f * g) in
  let p := p + g in
  let g := m in
  let m := m + kc in
  if (nabs (g - kc) <=? g * tol) || (10 <=? i)%Z then
    Ok (mkCel a b p k kc m i, true)
  else
    let i := (i + 1)%Z in
    r <- py_sqrt k ;;
    let kc := lit 2 * r in
    let k := kc * m in
    Ok (mkCel a b p k kc m i, false).

(** [while True]: at most [fuel] passes, counting them in [n]; [None] when
    the fuel does not suffice. *)
Fixpoint cel_loop (fuel : nat) (s : cel_state) (n : nat)
    : option (result cel_state * nat) :=
  match fuel with
  | O => None
  | S fuel' =>
      match cel_round s with
      | Raise e => Some (Raise e, S n)
      | Ok (s', true) => Some (Ok s', S n)
      | Ok (s', false) => cel_loop fuel' s' (S n)
      end
  end.

(** The statements in front of the loop. *)
Definition cel_init (kc p a b : float) : result cel_state :=
  let kc := nabs kc in
  let k := kc in
  let m := lit 1 in
  if p >? lit 0 then
    p <- py_sqrt p ;;
    b <- py_div b p ;;
    Ok (mkCel a b p k kc m 0)
  else
    let f := kc * kc in
    let g := lit 1 - p in
    let q := (lit 1 - f) * (b - a * p) in
    let f := f - p in
    fg <- py_div f g ;;
    p <- py_sqrt fg ;;
    a <- py_div (a - b) g ;;
    x <- py_div q (g * g * p) ;;
    let b := a * p - x in
    Ok (mkCel a b p k kc m 0).

(** [cel(kc, p, a, b)] run with [fuel] passes of the loop at most: the
    outcome and the number of passes made. *)
Definition cel (fuel : nat) (kc p a b : float)
    : option (result float * nat) :=
  if kc == lit 0 then Some (Ok nan, O)
  else
    match cel_init kc p a b with
    | Raise e => Some (Raise e, O)
    | Ok s =>
        match cel_loop fuel s O with
        | None => None
        | Some (Raise e, n) => Some (Raise e, n)
        | Some (Ok (mkCel a b p k kc m i), n) =>
            Some (py_div (npi * dec 5 1 * (a * m + b)) (m * (m + p)), n)
        end
    end.

(** The passes left before the cap [i >= 10] forces the [break]. *)
Definition passes_left (s : cel_state) : nat := Z.to_nat (10 - cel_i s).

End Cel.

(* ================================================================= *)
(** ** Further routines of the kernel, of [FieldLine] and of [Startpath] *)

Section Further.

Context {num : Type} `{Arith num}.
Local Open Scope num_scope.

(** The builtin [min] keeps its first argument unless a later one is
    smaller. *)
Definition py_min (a b : num) : num := if b <? a then b else a.

(** *** The angle between two vectors (lines 63-86)

    [dd] is a product of two [math.hypot] values; past the test [dd == 0.]
    the division cannot raise. *)
Definition cosv (v1 v2 : vec) : num :=
  let dd := nhypot (fst v1) (snd v1) * nhypot (fst v2) (snd v2) in
  if dd == lit 0 then lit 1
  else
    let cv := (fst v1 * fst v2 + snd v1 * snd v2) / dd in
    if cv >=? lit 1 then lit 1
    else if cv <=? - lit 1 then - lit 1
    else cv.

Definition sinv (v1 v2 : vec) : num :=
  let dd := nhypot (fst v1) (snd v1) * nhypot (fst v2) (snd v2) in
  if dd == lit 0 then lit 1
  else
    let sv := (fst v1 * snd v2 - snd v1 * fst v2) / dd in
    if sv >=? lit 1 then lit 1
    else if sv <=? - lit 1 then - lit 1
    else sv.

(** *** [rot] (line 55)

    [math.sin] and [math.cos] are library functions: they are arguments
    here. *)
Definition rot (sin cos : num -> num) (xy : vec) (phi : num) : vec :=
  let s := sin phi in
  let c := cos phi in
  (c * fst xy - s * snd xy, c * snd xy + s * fst xy).

(** *** [FieldLine._rkstep] (line 1016)

    One classical Runge-Kutta step of size [h] from [p], where the
    direction [v = f(p)] is known already; [f] is the direction field, a
    callback.  Returns the new point and the spread of the four
    directions. *)
Definition _rkstep (p v : vec) (f : vec -> result vec) (h : num)
    : result (vec * num) :=
  let k1 := vscale h v in
  v2 <- f (vadd p (vdivs k1 (lit 2))) ;;
  let k2 := vscale h v2 in
  v3 <- f (vadd p (vdivs k2 (lit 2))) ;;
  let k3 := vscale h v3 in
  v4 <- f (vadd p k3) ;;
  let k4 := vscale h v4 in
  let p1 := vadd p (vdivs (vadd (vadd k1 (vscale (lit 2) (vadd k2 k3))) k4)
                          (lit 6)) in
  let verr :=
    py_max (py_max (py_max (py_max (py_max
      (vabs (vsub v v2)) (vabs (vsub v v3))) (vabs (vsub v v4)))
      (vabs (vsub v2 v3))) (vabs (vsub v3 v4))) (vabs (vsub v4 v2)) in
  Ok (p1, verr).

(** *** [FieldLine._get_nearest_pole] (line 986) *)

(** The dict it returns: ['type'], ['xy'] and, for a dipole, ['p']. *)
Record Pole : Type := mkPole {
  pole_type : string;
  pole_xy   : @vec num;
  pole_p    : option (@vec num)
}.

(** [d *= 1.3 - cosv(v, r)], when a direction [v] is given. *)
Definition weighted (v : option vec) (d : num) (r : vec) : num :=
  match v with
  | Some v => d * (dec 13 1 - cosv v r)
  | None => d
  end.

(** The variables of the search loop; [p_near] is unbound until a pole
    has been nearer than the start point. *)
Record nearest : Type := mkNearest {
  d_near    : num;
  xy_near   : @vec num;
  p_near    : option (@vec num);
  type_near : string
}.

(** One pass of the loop over [self.field.elements].  The lookups are not
    guarded: a missing key raises. *)
Definition nearest_step (p : vec) (v : option vec) (st : nearest)
    (el : element) : result nearest :=
  let '(ptype, pole) := el in
  if negb (String.eqb ptype "monopole" || String.eqb ptype "dipole") then Ok st
  else
    x <- getnum pole "x" ;;
    y <- getnum pole "y" ;;
    let xy := (x, y) in
    let d := vabs (vsub xy p) in
    pxy <- (if String.eqb ptype "dipole" then
              px <- getnum pole "px" ;;
              py <- getnum pole "py" ;;
              Ok (Some (px, py))
            else Ok None) ;;
    let d := weighted v d (vsub xy p) in
    if d <? d_near st then Ok (mkNearest d xy pxy ptype) else Ok st.

Fixpoint nearest_scan (p : vec) (v : option vec) (st : nearest)
    (els : list element) : result nearest :=
  match els with
  | [] => Ok st
  | el :: rest => st' <- nearest_step p v st el ;; nearest_scan p v st' rest
  end.

Definition _get_nearest_pole (field : Field) (first_point p : vec)
    (v : option vec) : result Pole :=
  let r := vsub first_point p in
  let start := mkNearest (weighted v (vabs r) r) first_point None "start" in
  st <- nearest_scan p v start (elements field) ;;
  Ok (mkPole (type_near st) (xy_near st)
             (if String.eqb (type_near st) "dipole" then p_near st else None)).

(** *** [FieldLine._bending] (line 1342)

    [d1], [d2] and what is computed from them are [numpy.float64] scalars:
    their divisions do not raise.  [math.sqrt] does, on a negative
    argument. *)
Variable interp1d : list num -> list Z -> num -> result num.

Definition _bending (nodes : list Node) (p0 p3 : vec) (t0 t3 : num)
    : result num :=
  if vabs (vsub p3 p0) == lit 0 then Ok (lit 0)
  else
    (* calculate two extra points on intervall *)
    p1 <- get_position interp1d nodes ((lit 2 * t0 + t3) / lit 3) ;;
    p2 <- get_position interp1d nodes ((t0 + lit 2 * t3) / lit 3) ;;
    (* d1, d2: point distances from straight line *)
    let d1 := fst (vsub p1 p0) * snd (vsub p3 p0)
              - snd (vsub p1 p0) * fst (vsub p3 p0) in
    let d1 := d1 / vabs (vsub p3 p0) in
    let d2 := fst (vsub p2 p0) * snd (vsub p3 p0)
              - snd (vsub p2 p0) * fst (vsub p3 p0) in
    let d2 := d2 / vabs (vsub p3 p0) in
    let dsum := d1 + d2 in
    let ddif := d1 - d2 in
    let d := lit 0 in
    if nabs ddif <? dec 1 5 then
      Ok (lit 10 / lit 9 * (nabs d1 + nabs d2) / lit 2)
    else
      let y (x : num) : num :=
        dec 135 1 * x * (lit 1 - x)
        * (d1 * (lit 2 / lit 3 - x) + d2 * (x - lit 1 / lit 3)) in
      let xm := dec 5 1 + dsum / (lit 18 * ddif) in
      s <- py_sqrt (lit 27 * powi ddif 2 + powi dsum 2) ;;
      let xd := s / (lit 18 * ddif) in
      let x1 := py_min (xm + xd) (xm - xd) in
      let x2 := py_max (xm + xd) (xm - xd) in
      let d := if x1 >? lit 0 then py_max d (nabs (y x1)) else d in
      let d := if x2 <? lit 1 then py_max d (nabs (y x2)) else d in
      Ok d.

(** *** Methods of [Startpath] (lines 2250-2267)

    They read the attributes [startpath], [t0], [t1], [field], [Fmax] and
    [F_rescale].  The path is taken to return arrays of shape (2,), what
    [__init__] asserts at [t0]; [F_rescale], like [Fmax], to return a
    Python float. *)

(** [numpy.maximum] and [numpy.minimum] on two scalars, and [clip]. *)
Definition maximum (a b : num) : num :=
  if (a >=? b) || (a != a) then a else b.

Definition minimum (a b : num) : num :=
  if (a <=? b) || (a != a) then a else b.

Definition clip (a a_min a_max : num) : num :=
  minimum a_max (maximum a a_min).

Definition _dstartpath (startpath : num -> result vec) (t0 t1 t : num)
    : result vec :=
  let trange := t1 - t0 in
  let dt := trange * dec 1 6 in
  let tmdt := clip (t - dt) t0 t1 in
  let tpdt := clip (t + dt) t0 t1 in
  a <- startpath tpdt ;;
  b <- startpath tmdt ;;
  Ok (vdivs (vsub a b) (tpdt - tmdt)).

Variable ext : @extended num.

Definition _field_along_path (field : Field) (startpath : num -> result vec)
    (t0 t1 Fmax : num) (F_rescale : option (num -> result num)) (t : num)
    : result num :=
  xy <- startpath t ;;
  let Fxy := F ext field xy in
  Fxy <- match F_rescale with
         | Some rescale =>
             let Fabs := vabs Fxy in
             s <- rescale Fabs ;;
             c <- py_div s Fabs ;;
             Ok (fst Fxy * c, snd Fxy * c)
         | None => Ok Fxy
         end ;;
  let Fabs := vabs Fxy in
  Fxy <- (if Fabs >? Fmax then
            c <- py_div Fmax Fabs ;; Ok (fst Fxy * c, snd Fxy * c)
          else Ok Fxy) ;;
  dpath <- _dstartpath startpath t0 t1 t ;;
  Ok (nabs (fst Fxy * snd dpath - snd Fxy * fst dpath)).

End Further.

(* ================================================================= *)
(** ** Notions used in the statements *)

(** The signed distance of a point to a rectangle in the maximum norm, as
    the specification words it: negative inside, positive outside. *)
Definition Linf_signed_distance {num : Type} `{Arith num}
    (p : vec) (b : Bounds) : num :=
  py_max (py_max (nsub (b_x0 b) (fst p)) (nsub (fst p) (b_x1 b)))
         (py_max (nsub (b_y0 b) (snd p)) (nsub (snd p) (b_y1 b))).

(** The length of the polygon through the nodes, summed along consecutive
    nodes. *)
Fixpoint arc_length_from {num : Type} `{Arith num}
    (prev : Node) (rest : list Node) : num :=
  match rest with
  | [] => lit 0
  | n :: rest' =>
      nadd (vabs (vsub (node_p n) (node_p prev))) (arc_length_from n rest')
  end.

Definition arc_length {num : Type} `{Arith num} (nodes : list Node) : num :=
  match nodes with
  | [] => lit 0
  | n0 :: rest => arc_length_from n0 rest
  end.

(** A custom element whose branch of [Field.F] is the one that
    differentiates the potential: it has neither ['f'] nor ['F'], and has
    ['V']. *)
Definition by_potential {num : Type} (el : @element num) : bool :=
  let '(kind, par) := el in
  String.eqb kind "custom" && negb (has_key par "f")
  && negb (has_key par "F") && has_key par "V".

(** Evaluators for fields without extended sources: never called by the
    runs below. *)
Definition no_extended {num : Type} : @extended num :=
  {| F_charged_line  := fun _ _ _ _ _ _ => Raise ValueError;
     F_charged_plane := fun _ _ _ _ _ _ => Raise ValueError;
     F_charged_rect  := fun _ _ _ _ _ _ _ => Raise ValueError;
     F_charged_disc  := fun _ _ _ _ _ _ => Raise ValueError;
     F_sheetcurrent  := fun _ _ _ _ _ _ => Raise ValueError;
     F_ringcurrent   := fun _ _ _ _ _ _ => Raise ValueError;
     F_coil          := fun _ _ _ _ _ _ _ => Raise ValueError;
     V_charged_wire  := fun _ _ _ _ => Raise ValueError;
     V_charged_line  := fun _ _ _ _ _ _ => Raise ValueError;
     V_charged_plane := fun _ _ _ _ _ _ => Raise ValueError;
     V_charged_rect  := fun _ _ _ _ _ _ _ => Raise ValueError;
     V_charged_disc  := fun _ _ _ _ _ _ => Raise ValueError |}.

(** Elements in the list form of [Field(...)]. *)
Definition homogeneous {num : Type} (Fx Fy : num) : @element num :=
  ("homogeneous"%string, [("Fx"%string, VNum Fx); ("Fy"%string, VNum Fy)]).

Definition monopole {num : Type} (x y Q : num) : @element num :=
  ("monopole"%string,
   [("x"%string, VNum x); ("y"%string, VNum y); ("Q"%string, VNum Q)]).

Definition custom_V {num : Type} (V : num * num -> result num) : @element num :=
  ("custom"%string, [("V"%string, VScalFun V)]).

(** A one-step integrator for the runs below: from [p_start] it makes one
    step of length [1] along the x axis, in the direction of [sign]
    (whatever [self.first_point] is). *)
Definition one_step (p_start first_point : float * float) (sign : float)
    : result (list (@Node float)) :=
  let v := (sign, 0%float) in
  Ok [ mkNode p_start None (Some v) None None;
       mkNode (vadd p_start v) (Some v) None None None ].

(** The linear interpolant through the knots [0 -> 0] and [1 -> 1]. *)
Definition identity_interpolant (l : list float) (r : list Z) (t : float)
    : result float := Ok t.

(** The two nodes a line is left with when it is started with the dipole
    displacement [start_d = (0, 0)] in a field that vanishes at the start
    point: the first step has length zero and the zero field ends the
    line. *)
Definition stuck_nodes : list (@Node float) :=
  [ mkNode (0, 0)%float None (Some (0, 0)%float) None None;
    mkNode (0, 0)%float (Some (0, 0)%float) None None None ].

(** The field strength [2^53], at which the floats are [2] apart. *)
Definition big : float := 0x1p+53%float.

Section ExactNotions.

Local Open Scope R_scope.

(** The value the code returns outside of the rectangle. *)
Definition outside_value (p : R * R) (b : @Bounds R) : R :=
  sqrt ((fst p - b_x0 b) ^ 2 + (snd p - b_y0 b) ^ 2
        + (b_x1 b - fst p) ^ 2 + (b_y1 b - snd p) ^ 2).

Definition inside (p : R * R) (b : @Bounds R) : Prop :=
  b_x0 b <= fst p <= b_x1 b /\ b_y0 b <= snd p <= b_y1 b.

(** The user's [bounds_func] is absent or does not evaluate positive. *)
Definition not_positive (bounds_func : option (R * R -> result R))
    (p : R * R) : Prop :=
  match bounds_func with
  | None => True
  | Some f => exists s, f p = Ok s /\ s <= 0
  end.

(** The running length at the nodes after [prev], entered with [acc]. *)
Fixpoint running (acc : R) (prev : R * R) (rest : list (@Node R)) : list R :=
  match rest with
  | [] => []
  | n :: rest' =>
      let t := acc + vabs (vsub prev (node_p n)) in
      t :: running t (node_p n) rest'
  end.

End ExactNotions.

(** The class operations, read at the exact instance. *)
Ltac exact_arith :=
  cbn [lit nadd nsub nmul ndiv nopp nabs neqb nltb nleb nsqrt nhypot npi nmod
       nfloor nisinf exact] in *.

(** *** Notions for the further routines *)

(** The element kinds that [Field.F] or [Field.V] dispatch on. *)
Definition known_kinds : list string :=
  [ "homogeneous"; "monopole"; "dipole"; "dipole2d"; "quadrupole"; "wire";
    "charged_wire"; "charged_line"; "charged_plane"; "charged_rect";
    "charged_disc"; "sheetcurrent"; "ringcurrent"; "coil"; "custom";
    "potential" ]%string.

(** The kinds whose parameters start with the position ['x'], ['y']. *)
Definition positioned_kinds : list string :=
  [ "monopole"; "dipole"; "dipole2d"; "quadrupole"; "wire"; "charged_wire";
    "ringcurrent"; "coil" ]%string.

(** The distance [_get_nearest_pole] compares: the distance from [p] to
    [xy], weighted by the direction [v] when one is given. *)
Definition pole_distance {num : Type} `{Arith num}
    (p : vec) (v : option vec) (xy : vec) : num :=
  weighted v (vabs (vsub xy p)) (vsub xy p).

(** A monopole or a dipole. *)
Definition is_pole (kind : string) : bool :=
  String.eqb kind "monopole" || String.eqb kind "dipole".

(** The tangents the dense output reads are present: every node with a
    successor has its ['v_out'], and the successor its ['v_in']. *)
Definition tangents_set {num : Type} (nodes : list (@Node num)) : Prop :=
  forall k n0 n1,
    nth_error nodes k = Some n0 -> nth_error nodes (S k) = Some n1 ->
    node_v_out n0 <> None /\ node_v_in n1 <> None.

(** [range(len(l))] *)
Definition range_len {A : Type} (l : list A) : list Z :=
  map Z.of_nat (seq 0 (List.length l)).

(** The number of components the conversion of the old-style dict reads
    from a tuple under the key [t]; [None] for ['custom'], whose entries
    are callbacks, and for a key that is not converted. *)
Definition tuple_arity (t : string) : option nat :=
  if String.eqb t "homogeneous" then Some 2%nat
  else if String.eqb t "monopoles" then Some 3%nat
  else if String.eqb t "dipoles" then Some 4%nat
  else if String.eqb t "quadrupoles" then Some 4%nat
  else if String.eqb t "wires" then Some 3%nat
  else if String.eqb t "charged_wires" then Some 3%nat
  else if String.eqb t "charged_planes" then Some 5%nat
  else if String.eqb t "charged_lines" then Some 5%nat
  else if String.eqb t "charged_discs" then Some 5%nat
  else if String.eqb t "ringcurrents" then Some 5%nat
  else if String.eqb t "coils" then Some 6%nat
  else None.

(** An entry under the key [t] that the conversion can read: a tuple with
    enough components. *)
Definition fits {num : Type} (t : string) (l : @oldentry num) : bool :=
  match tuple_arity t with
  | None => true
  | Some k =>
      match l with
      | OTuple xs => (k <=? List.length xs)%nat
      | OFun _ => false
      end
  end.

(** The kind differs from every known kind. *)
Ltac split_kinds Hk :=
  cbn [existsb known_kinds] in Hk;
  repeat (apply orb_false_elim in Hk; destruct Hk as [? Hk]).


(* ================================================================= *)
(** * Properties *)

(* ================================================================= *)
(** ** Facts about binary64 *)

Module Binary64Facts.

Import Binary64.

Lemma finite_cases (x : float) :
  finite x = true ->
  (exists s, Prim2SF x = S754_zero s) \/
  (exists s m e, Prim2SF x = S754_finite s m e).
Proof.
  unfold finite. destruct (Prim2SF x) eqn:E; try discriminate; eauto.
Qed.

(** A finite float minus itself is [+0]. *)
Lemma sub_diag (x : float) : finite x = true -> (x - x)%float = 0%float.
Proof.
  intros Hx.
  rewrite <- (SF2Prim_Prim2SF (x - x)), sub_spec.
  destruct (finite_cases x Hx) as [[s E] | (s & m & e & E)]; rewrite E.
  - destruct s; reflexivity.
  - unfold SF64sub, SFsub. rewrite Z.sub_diag. reflexivity.
Qed.

(** [t1 <= t0] excludes [t1 > t0]. *)
Lemma leb_not_gt (t0 t1 : float) :
  PrimFloat.leb t1 t0 = true -> PrimFloat.ltb t0 t1 = false.
Proof.
  rewrite leb_spec, ltb_spec. unfold SFleb, SFltb.
  destruct (Prim2SF t1) as [s1 | s1 | | s1 m1 e1],
           (Prim2SF t0) as [s0 | s0 | | s0 m0 e0]; simpl;
    try destruct s1; try destruct s0; try reflexivity; try discriminate.
  - pose proof (Pos.compare_cont_antisym m1 m0 Eq) as E. simpl in E.
    rewrite (Z.compare_antisym e1 e0), <- E.
    destruct (e1 ?= e0)%Z; simpl; try discriminate; try reflexivity.
    destruct (Pos.compare_cont Eq m1 m0); simpl; try discriminate; reflexivity.
  - pose proof (Pos.compare_cont_antisym m1 m0 Eq) as E. simpl in E.
    rewrite (Z.compare_antisym e1 e0), <- E.
    destruct (e1 ?= e0)%Z; simpl; try discriminate; try reflexivity.
    destruct (Pos.compare_cont Eq m1 m0); simpl; try discriminate; reflexivity.
Qed.

End Binary64Facts.

(* ================================================================= *)
(** ** The singular points of the point sources *)

Section SingularPoints.

Import Binary64 Binary64Facts.

Lemma at_the_source (x y : float) :
  finite x = true -> finite y = true ->
  nhypot (nsub (fst (x, y)) x) (nsub (snd (x, y)) y) = 0%float.
Proof.
  intros Hx Hy. cbn [fst snd nsub nhypot binary64].
  rewrite (sub_diag x Hx), (sub_diag y Hy). reflexivity.
Qed.

(** C2: evaluated at its own position (finite coordinates), a monopole
    gives the zero vector and a dipole gives its moment [(px, py)]. *)
Theorem singular_point_values (x y Q px py : float) :
  finite x = true -> finite y = true ->
  F_monopole (x, y) x y Q = Ok (0, 0)%float /\
  F_dipole (x, y) x y px py = Ok (px, py).
Proof.
  intros Hx Hy. unfold F_monopole, F_dipole.
  rewrite (at_the_source x y Hx Hy). split; reflexivity.
Qed.

(** The source at [(1.5, -2)]. *)
Lemma singular_point_values_witness :
  F_monopole (1.5, -2)%float 1.5%float (-2)%float 3%float = Ok (0, 0)%float /\
  F_dipole (1.5, -2)%float 1.5%float (-2)%float 0.5%float 4%float
    = Ok (0.5, 4)%float.
Proof.
  apply (singular_point_values 1.5 (-2) 3 0.5 4); vm_compute; reflexivity.
Defined.

(** Away from the source the same evaluators are the closed forms: the
    monopole at the origin seen from [(2, 0)] gives [1 / (4 pi 2^3) * 2]. *)
Example F_monopole_off_source :
  F_monopole (2, 0)%float 0%float 0%float 1%float
  = Ok (1 / (4 * pi * 8) * 2, 1 / (4 * pi * 8) * 0)%float.
Proof. vm_compute. reflexivity. Qed.

End SingularPoints.

(* ================================================================= *)
(** ** Construction of a field from an unexpected argument *)

(** C10: [Field(elements)] with an argument that is neither a list nor a
    dict does not raise and has no elements: [F] and [Fn] are the zero
    vector and [V] is zero at every point. *)
Theorem Field_init_other_is_empty (ext : extended) (xy : float * float) :
  exists self : Field,
    Field_init ArgOther = Ok self /\
    elements self = [] /\
    F ext self xy = (0, 0)%float /\
    Fn ext self xy = (0, 0)%float /\
    V ext self xy = 0%float.
Proof.
  exists (mkField []). repeat split; vm_compute; reflexivity.
Qed.

(* ================================================================= *)
(** ** Dense output on degenerate node lists *)

(** C9: [get_position(t)] on an empty node list is the zero vector and on
    a single node is that node's position, whatever [t] is; it does not
    raise. *)
Theorem get_position_degenerate {num : Type} `{Arith num}
    (interp1d : list num -> list Z -> num -> result num) (t : num) :
  get_position interp1d [] t = Ok zeros2 /\
  forall n : Node, get_position interp1d [n] t = Ok (node_p n).
Proof.
  split; [reflexivity | intros n; reflexivity].
Qed.

(* ================================================================= *)
(** ** The assertions of [Startpath.__init__] *)

Section StartpathInit.

Import Binary64Facts.

Variable Spline : Type.
Variable _make_spline :
  option (float -> result (@ndarray float)) -> float -> float ->
  @Field float -> float -> option (float -> result float) -> result Spline.

Lemma shape_is_2_false (a : @ndarray float) :
  shape a <> [2%nat] -> shape_is_2 a = false.
Proof.
  unfold shape_is_2. intros Hs.
  destruct (shape a) as [| [| [| [| n]]] [| m l]]; try reflexivity.
  contradiction.
Qed.

(** C8: when [t1 <= t0], or when [func] is callable and [func(t0)] is an
    array whose shape is not [(2,)], [Startpath(...)] raises
    [AssertionError], and [_make_spline] has not been called.  ([func(t0)]
    is taken to return: its own exceptions are not assertion errors.) *)
Theorem Startpath_init_asserts (field : @Field float) (func : @pyfunc float)
    (t0 t1 Fmax : float) (F_rescale : option (float -> result float)) :
  (forall f, func = Callable f -> exists p0, f t0 = Ok p0) ->
  (nleb t1 t0 = true \/
   exists f p0, func = Callable f /\ f t0 = Ok p0 /\ shape p0 <> [2%nat]) ->
  exists log,
    Startpath_init Spline _make_spline field func t0 t1 Fmax F_rescale
      = (log, Raise AssertionError) /\
    ~ In MakeSpline log.
Proof.
  intros Hret Hbad. unfold Startpath_init.
  assert (Hlog : forall t : float, ~ In MakeSpline [CallFunc t]).
  { intros t [E | []]. discriminate E. }
  destruct func as [f |].
  - destruct (Hret f eq_refl) as [p0 Hp0]. rewrite Hp0.
    destruct (shape_is_2 p0) eqn:Hshape.
    + destruct Hbad as [Hle | (f' & p0' & Hf & Hp0' & Hs)].
      * cbn [nleb binary64] in Hle. apply leb_not_gt in Hle.
        cbn [nltb binary64]. rewrite Hle. eauto.
      * injection Hf as <-. rewrite Hp0 in Hp0'. injection Hp0' as <-.
        rewrite (shape_is_2_false p0 Hs) in Hshape. discriminate.
    + eauto.
  - destruct Hbad as [Hle | (f' & p0' & Hf & _)]; [| discriminate].
    cbn [nleb binary64] in Hle. apply leb_not_gt in Hle.
    cbn [nltb binary64]. rewrite Hle. exists []. split; [reflexivity | intros []].
Qed.

End StartpathInit.

(** A path of shape [(2,)] on the empty interval [[1, 1]], and a path of
    shape [(3,)] on [[0, 1]]. *)
Lemma Startpath_init_asserts_witness :
  (exists log,
     Startpath_init unit (fun _ _ _ _ _ _ => Ok tt) (mkField [])
       (Callable (fun t => Ok (mkArray [2%nat] [t; t]))) 1%float 1%float
       1e4%float None
     = (log, Raise AssertionError) /\ ~ In MakeSpline log) /\
  (exists log,
     Startpath_init unit (fun _ _ _ _ _ _ => Ok tt) (mkField [])
       (Callable (fun t => Ok (mkArray [3%nat] [t; t; t]))) 0%float 1%float
       1e4%float None
     = (log, Raise AssertionError) /\ ~ In MakeSpline log).
Proof.
  split.
  - apply Startpath_init_asserts.
    + intros f E. injection E as <-. eexists. reflexivity.
    + left. vm_compute. reflexivity.
  - apply Startpath_init_asserts.
    + intros f E. injection E as <-. eexists. reflexivity.
    + right. do 2 eexists. repeat split. discriminate.
Defined.

(* ================================================================= *)
(** ** Facts about the exact arithmetic *)

Module ExactFacts.

Local Open Scope R_scope.

Lemma ltb_true x y : Exact.ltb x y = true <-> x < y.
Proof. unfold Exact.ltb. destruct (Rlt_dec x y); split; intros; try easy. Qed.

Lemma ltb_false x y : Exact.ltb x y = false <-> y <= x.
Proof.
  unfold Exact.ltb. destruct (Rlt_dec x y); split; intros; try easy; lra.
Qed.

Lemma leb_true x y : Exact.leb x y = true <-> x <= y.
Proof. unfold Exact.leb. destruct (Rle_dec x y); split; intros; try easy. Qed.

Lemma eqb_true x y : Exact.eqb x y = true <-> x = y.
Proof. unfold Exact.eqb. destruct (Req_dec_T x y); split; intros; try easy. Qed.

Lemma eqb_false x y : Exact.eqb x y = false <-> x <> y.
Proof. unfold Exact.eqb. destruct (Req_dec_T x y); split; intros; try easy. Qed.

(** The builtin [max] is the maximum. *)
Lemma py_max_Rmax (a b : R) : py_max a b = Rmax a b.
Proof.
  unfold py_max. cbn [nltb exact]. unfold Rmax.
  destruct (Exact.ltb a b) eqn:E.
  - apply ltb_true in E. destruct (Rle_dec a b); [reflexivity | lra].
  - apply ltb_false in E. destruct (Rle_dec a b); [lra | reflexivity].
Qed.

Lemma hypot_nonneg (x y : R) : 0 <= Exact.hypot x y.
Proof. apply sqrt_pos. Qed.

Lemma hypot_zero : Exact.hypot 0 0 = 0.
Proof. unfold Exact.hypot. rewrite Rmult_0_l, Rplus_0_l. apply sqrt_0. Qed.

(** The remainder of a division by a positive number lies in [[0, y)]. *)
Lemma rem_bounds (x y : R) : 0 < y -> 0 <= Exact.rem x y < y.
Proof.
  intros Hy. unfold Exact.rem.
  destruct (base_Int_part (x / y)) as [Hlo Hhi].
  set (k := IZR (Int_part (x / y))) in *.
  assert (Hx : x = x / y * y) by (field; lra).
  split.
  - assert (y * k <= x / y * y) by nra. lra.
  - assert (x / y * y < y * k + y) by nra. lra.
Qed.

End ExactFacts.

(* ================================================================= *)
(** ** The same values in exact arithmetic *)

Section ExactValues.

Import ExactFacts.
Local Open Scope R_scope.

Lemma at_the_source_exact (x y : R) :
  nhypot (nsub (fst (x, y)) x) (nsub (snd (x, y)) y) = 0.
Proof.
  cbn [fst snd]. exact_arith. rewrite !Rminus_diag. apply hypot_zero.
Qed.

Lemma eqb_zero_zero : Exact.eqb 0 0 = true.
Proof. apply eqb_true. reflexivity. Qed.

(** Over the reals the singular values hold at every source position. *)
Lemma singular_point_values_exact (x y Q px py : R) :
  F_monopole (x, y) x y Q = Ok (0, 0) /\
  F_dipole (x, y) x y px py = Ok (px, py).
Proof.
  unfold F_monopole, F_dipole. rewrite (at_the_source_exact x y).
  exact_arith. rewrite eqb_zero_zero. split; reflexivity.
Qed.

(** The field without elements vanishes. *)
Lemma empty_field_exact (ext : @extended R) (xy : R * R) :
  F ext (mkField []) xy = (0, 0) /\
  Fn ext (mkField []) xy = (0, 0) /\
  V ext (mkField []) xy = 0.
Proof.
  unfold Fn, F, V, vabs. cbn [elements fold_left zeros2 fst snd]. exact_arith.
  rewrite hypot_zero, eqb_zero_zero. repeat split.
Qed.

End ExactValues.

(* ================================================================= *)
(** ** The range of [angle_dif] *)

Section AngleDif.

Import ExactFacts.
Local Open Scope R_scope.

Lemma angle_dif_floored (a1 a2 : R) :
  angle_dif a1 a2
  = (a2 - a1 + PI) - 2 * PI * IZR (Int_part ((a2 - a1 + PI) / (2 * PI))) - PI.
Proof. reflexivity. Qed.

(** C3: [angle_dif(a1, a2)] is [((a2 - a1 + pi) mod 2 pi) - pi], the
    remainder being that of the floored division; in exact arithmetic it
    lies in the half-open interval [[-pi, pi)]. *)
Theorem angle_dif_range (a1 a2 : R) :
  angle_dif a1 a2
  = (a2 - a1 + PI) - 2 * PI * IZR (Int_part ((a2 - a1 + PI) / (2 * PI))) - PI
  /\ - PI <= angle_dif a1 a2 < PI.
Proof.
  split; [apply angle_dif_floored |].
  unfold angle_dif. exact_arith.
  pose proof PI_RGT_0 as Hpi.
  destruct (rem_bounds (a2 - a1 + PI) (2 * PI)) as [Hlo Hhi]; lra.
Qed.

(** The lower end is attained: in exact arithmetic ... *)
Lemma angle_dif_exact_minus_pi : angle_dif 0 PI = - PI.
Proof.
  pose proof PI_RGT_0 as Hpi.
  rewrite angle_dif_floored.
  replace ((PI - 0 + PI) / (2 * PI)) with 1 by (field; lra).
  rewrite <- (Int_part_spec 1 1) by (simpl; lra). simpl. lra.
Qed.

(** ... and in binary64. *)
Lemma angle_dif_binary64_minus_pi :
  angle_dif 0%float Binary64.pi = (- Binary64.pi)%float.
Proof. vm_compute. reflexivity. Qed.

(** C3, as stated, fails: the difference between the angles [0] and [pi]
    is [-pi], which is outside [(-pi, pi]]. *)
Lemma angle_dif_returns_minus_pi :
  (angle_dif 0 PI = - PI /\ ~ (- PI < angle_dif 0 PI <= PI)) /\
  (angle_dif 0%float Binary64.pi = (- Binary64.pi)%float /\
   nltb (- Binary64.pi)%float (angle_dif 0%float Binary64.pi) = false).
Proof.
  split.
  - rewrite angle_dif_exact_minus_pi. split; [reflexivity | lra].
  - split; vm_compute; reflexivity.
Qed.

(** Rounding can close the interval at the upper end: with [a2] the float
    just below [-pi], [a2 - 0 + pi] is a negative number so small that
    adding [2 pi] to its remainder rounds to [2 pi]. *)
Example angle_dif_binary64_plus_pi :
  angle_dif 0%float (-0x1.921fb54442d19p+1)%float = Binary64.pi.
Proof. vm_compute. reflexivity. Qed.

End AngleDif.

(* ================================================================= *)
(** ** The distance to the drawing area *)

Section OutOfBounds.

Import ExactFacts.
Local Open Scope R_scope.

Lemma bounds_func_skipped bounds_func p bounds :
  not_positive bounds_func p ->
  _out_of_bounds bounds_func p bounds = _out_of_bounds None p bounds.
Proof.
  unfold not_positive, _out_of_bounds. destruct bounds_func as [f |]; [| reflexivity].
  intros (s & -> & Hs). cbn [bind]. exact_arith.
  replace (Exact.ltb 0 s) with false; [reflexivity |].
  symmetry. apply ltb_false. exact Hs.
Qed.

Lemma inside_test (p : R * R) (b : @Bounds R) :
  inside p b ->
  (nltb (fst p) (b_x0 b) || nltb (snd p) (b_y0 b)
   || nltb (b_x1 b) (fst p) || nltb (b_y1 b) (snd p))%bool = false.
Proof.
  intros [[H1 H2] [H3 H4]]. exact_arith.
  rewrite !orb_false_iff. repeat split; apply ltb_false; assumption.
Qed.

Lemma outside_test (p : R * R) (b : @Bounds R) :
  ~ inside p b ->
  (nltb (fst p) (b_x0 b) || nltb (snd p) (b_y0 b)
   || nltb (b_x1 b) (fst p) || nltb (b_y1 b) (snd p))%bool = true.
Proof.
  intros Hout. exact_arith.
  destruct (Exact.ltb (fst p) (b_x0 b)) eqn:E1; [reflexivity |].
  destruct (Exact.ltb (snd p) (b_y0 b)) eqn:E2; [reflexivity |].
  destruct (Exact.ltb (b_x1 b) (fst p)) eqn:E3; [reflexivity |].
  destruct (Exact.ltb (b_y1 b) (snd p)) eqn:E4; [reflexivity |].
  apply ltb_false in E1, E2, E3, E4. exfalso. apply Hout.
  unfold inside. lra.
Qed.

Lemma outside_sum_positive (p : R * R) (b : @Bounds R) :
  ~ inside p b ->
  0 < (fst p - b_x0 b) ^ 2 + (snd p - b_y0 b) ^ 2
      + (b_x1 b - fst p) ^ 2 + (b_y1 b - snd p) ^ 2.
Proof.
  intros Hout.
  pose proof (pow2_ge_0 (fst p - b_x0 b)).
  pose proof (pow2_ge_0 (snd p - b_y0 b)).
  pose proof (pow2_ge_0 (b_x1 b - fst p)).
  pose proof (pow2_ge_0 (b_y1 b - snd p)).
  destruct (Req_dec_T (fst p) (b_x0 b)) as [E1 | N1];
    [destruct (Req_dec_T (snd p) (b_y0 b)) as [E2 | N2];
     [destruct (Req_dec_T (b_x1 b) (fst p)) as [E3 | N3];
      [destruct (Req_dec_T (b_y1 b) (snd p)) as [E4 | N4] | ] | ] | ].
  - exfalso. apply Hout. unfold inside. lra.
  - assert (0 < (b_y1 b - snd p) ^ 2) by (apply pow_lt_0_even || nra). lra.
  - assert (0 < (b_x1 b - fst p) ^ 2) by nra. lra.
  - assert (0 < (snd p - b_y0 b) ^ 2) by nra. lra.
  - assert (0 < (fst p - b_x0 b) ^ 2) by nra. lra.
Qed.

Lemma max4_is_Linf (p : R * R) (b : @Bounds R) :
  py_max (py_max (py_max (b_x0 b - fst p) (b_y0 b - snd p)) (fst p - b_x1 b))
         (snd p - b_y1 b)
  = Linf_signed_distance p b.
Proof.
  unfold Linf_signed_distance. exact_arith. rewrite !py_max_Rmax.
  unfold Rmax. repeat destruct (Rle_dec _ _); lra.
Qed.

(** C4: where the user's [bounds_func] is absent or not positive,
    [_out_of_bounds(p, None)] is [-1]; for a rectangle it is the signed
    distance in the maximum norm when [p] is inside or on the rectangle
    (then not positive, and negative strictly inside), and
    [sqrt((p0-x0)^2 + (p1-y0)^2 + (x1-p0)^2 + (y1-p1)^2)], a positive
    number, when [p] is outside. *)
Theorem out_of_bounds_values (bounds_func : option (R * R -> result R))
    (p : R * R) (b : @Bounds R) :
  not_positive bounds_func p ->
  _out_of_bounds bounds_func p None = Ok (- 1) /\
  (inside p b ->
     _out_of_bounds bounds_func p (Some b) = Ok (Linf_signed_distance p b) /\
     Linf_signed_distance p b <= 0 /\
     (b_x0 b < fst p < b_x1 b -> b_y0 b < snd p < b_y1 b ->
      Linf_signed_distance p b < 0)) /\
  (~ inside p b ->
     _out_of_bounds bounds_func p (Some b) = Ok (outside_value p b) /\
     0 < outside_value p b).
Proof.
  intros Hf. rewrite !(bounds_func_skipped bounds_func p _ Hf).
  split; [reflexivity |]. split.
  - intros Hin. unfold _out_of_bounds. cbn [bind].
    rewrite (inside_test p b Hin). rewrite max4_is_Linf.
    split; [reflexivity |].
    unfold Linf_signed_distance. exact_arith. rewrite !py_max_Rmax.
    destruct Hin as [[H1 H2] [H3 H4]].
    split; [| intros [H5 H6] [H7 H8]];
      unfold Rmax; repeat destruct (Rle_dec _ _); lra.
  - intros Hout. unfold _out_of_bounds. cbn [bind].
    rewrite (outside_test p b Hout).
    pose proof (outside_sum_positive p b Hout) as Hpos.
    unfold py_sqrt, outside_value. cbn [powi]. exact_arith.
    replace (1 * (fst p - b_x0 b) * (fst p - b_x0 b)
             + 1 * (snd p - b_y0 b) * (snd p - b_y0 b)
             + 1 * (b_x1 b - fst p) * (b_x1 b - fst p)
             + 1 * (b_y1 b - snd p) * (b_y1 b - snd p))
      with ((fst p - b_x0 b) ^ 2 + (snd p - b_y0 b) ^ 2
            + (b_x1 b - fst p) ^ 2 + (b_y1 b - snd p) ^ 2) by ring.
    replace (Exact.ltb _ 0) with false
      by (symmetry; apply ltb_false; lra).
    split; [reflexivity | apply sqrt_lt_R0; exact Hpos].
Qed.

End OutOfBounds.

(** The unit square and the point [(2, 1/2)], no [bounds_func]. *)
Lemma out_of_bounds_values_witness :
  let p : R * R := (2, / 2)%R in
  let b : @Bounds R := mkBounds 0%R 0%R 1%R 1%R in
  _out_of_bounds None p None = Ok (- 1)%R /\
  (inside p b ->
     _out_of_bounds None p (Some b) = Ok (Linf_signed_distance p b) /\
     (Linf_signed_distance p b <= 0)%R /\
     ((b_x0 b < fst p < b_x1 b)%R -> (b_y0 b < snd p < b_y1 b)%R ->
      (Linf_signed_distance p b < 0)%R)) /\
  (~ inside p b ->
     _out_of_bounds None p (Some b) = Ok (outside_value p b) /\
     (0 < outside_value p b)%R).
Proof.
  apply (out_of_bounds_values None (2, / 2)%R (mkBounds 0%R 0%R 1%R 1%R)).
  exact I.
Defined.

(* ================================================================= *)
(** ** Termination of [cel] *)

Section CelTermination.

(** A pass of the loop that does not leave it has increased [i], and [i]
    was below the cap. *)
Lemma cel_round_continues (s s' : cel_state) :
  cel_round s = Ok (s', false) ->
  cel_i s' = cel_i s + 1 /\ cel_i s < 10.
Proof.
  destruct s as [a b p k kc m i]. unfold cel_round.
  destruct (py_div b p) as [x |]; [| discriminate]. cbn [bind].
  destruct (py_div k p) as [g |]; [| discriminate]. cbn [bind].
  destruct (nleb _ _); [discriminate |]. cbn [orb].
  destruct (10 <=? i) eqn:Hi; [discriminate |].
  destruct (py_sqrt k) as [r |]; [| discriminate]. cbn [bind].
  intros E. injection E as <-. cbn [cel_i]. apply Z.leb_gt in Hi. lia.
Qed.

Lemma cel_loop_ends (fuel : nat) :
  forall (s : cel_state) (n : nat),
    (passes_left s < fuel)%nat ->
    exists r n', cel_loop fuel s n = Some (r, n') /\
                 (n' <= n + passes_left s + 1)%nat.
Proof.
  induction fuel as [| fuel IH]; intros s n Hfuel; [lia |].
  cbn [cel_loop]. destruct (cel_round s) as [[s' [|]] | e] eqn:Hround.
  - eexists _, _. split; [reflexivity | lia].
  - destruct (cel_round_continues s s' Hround) as [Hi Hcap].
    assert (Hleft : (passes_left s = S (passes_left s'))%nat)
      by (unfold passes_left; lia).
    destruct (IH s' (S n)) as (r & n' & E & Hn'); [lia |].
    exists r, n'. split; [exact E | lia].
  - eexists _, _. split; [reflexivity | lia].
Qed.

(** More fuel than needed changes nothing. *)
Lemma cel_loop_stable (fuel : nat) :
  forall (s : cel_state) (n : nat) (out : result cel_state * nat),
    cel_loop fuel s n = Some out ->
    forall fuel', (fuel <= fuel')%nat -> cel_loop fuel' s n = Some out.
Proof.
  induction fuel as [| fuel IH]; intros s n out E fuel' Hle; [discriminate |].
  destruct fuel' as [| fuel']; [lia |].
  cbn [cel_loop] in *. destruct (cel_round s) as [[s' [|]] | e]; try exact E.
  apply (IH s' (S n) out E). lia.
Qed.

Lemma cel_init_counter (kc p a b : float) (s : cel_state) :
  cel_init kc p a b = Ok s -> cel_i s = 0.
Proof.
  unfold cel_init. destruct (nltb _ _).
  - destruct (py_sqrt p) as [p' |]; [| discriminate]. cbn [bind].
    destruct (py_div b p') as [b' |]; [| discriminate]. cbn [bind].
    intros E. injection E as <-. reflexivity.
  - destruct (py_div _ _) as [fg |]; [| discriminate]. cbn [bind].
    destruct (py_sqrt fg) as [p' |]; [| discriminate]. cbn [bind].
    destruct (py_div _ _) as [a' |]; [| discriminate]. cbn [bind].
    destruct (py_div _ _) as [x |]; [| discriminate]. cbn [bind].
    intros E. injection E as <-. reflexivity.
Qed.

(** C5: [cel(0, p, a, b)] is NaN, and for every argument the run ends
    within 11 passes of the loop: with fuel for 11 passes, or more, [cel]
    yields its outcome (a float, or the exception Python raises), so it is
    defined on all of its inputs. *)
Theorem cel_terminates (kc p a b : float) :
  (neqb kc (lit 0) = true -> cel 11 kc p a b = Some (Ok nan, 0%nat)) /\
  exists (r : result float) (n : nat),
    (n <= 11)%nat /\
    forall fuel, (11 <= fuel)%nat -> cel fuel kc p a b = Some (r, n).
Proof.
  split.
  - intros Hkc. unfold cel. rewrite Hkc. reflexivity.
  - unfold cel. destruct (neqb kc (lit 0)).
    + exists (Ok nan), 0%nat. split; [lia | reflexivity].
    + destruct (cel_init kc p a b) as [s | e] eqn:Hinit.
      * pose proof (cel_init_counter kc p a b s Hinit) as Hi.
        destruct (cel_loop_ends 11 s 0) as (r & n & E & Hn).
        { unfold passes_left. rewrite Hi. simpl. lia. }
        assert (Hn' : (n <= 11)%nat)
          by (unfold passes_left in Hn; rewrite Hi in Hn; simpl in Hn; lia).
        destruct r as [[a' b' p' k' kc' m' i'] | e].
        -- eexists _, n. split; [exact Hn' |]. intros fuel Hfuel.
           rewrite (cel_loop_stable 11 s 0 _ E fuel Hfuel). reflexivity.
        -- exists (Raise e), n. split; [exact Hn' |]. intros fuel Hfuel.
           rewrite (cel_loop_stable 11 s 0 _ E fuel Hfuel). reflexivity.
      * exists (Raise e), 0%nat. split; [lia | reflexivity].
Qed.

(** A run of one pass: [cel(1, 1, 1, 1)] is [pi / 2]. *)
Example cel_one_pass :
  cel 11 1%float 1%float 1%float 1%float
  = Some (Ok (Binary64.pi / 2)%float, 1%nat).
Proof. vm_compute. reflexivity. Qed.

(** The cap is reached: with [kc] not a number the tolerance test never
    holds and the loop leaves in its 11th pass, at [i >= 10]; 10 passes are
    not enough. *)
Example cel_at_the_cap :
  cel 11 nan 1%float 1%float 1%float = Some (Ok nan, 11%nat) /\
  cel 10 nan 1%float 1%float 1%float = None.
Proof. split; vm_compute; reflexivity. Qed.

(** The outcome can be an exception: with [p = 0] and [kc * kc]
    underflowing to zero, [g * g * p] is zero and Python's division raises
    in front of the loop. *)
Example cel_zero_division :
  cel 11 0x1p-600%float 0%float 1%float 1%float
  = Some (Raise ZeroDivisionError, 0%nat).
Proof. vm_compute. reflexivity. Qed.

End CelTermination.

(* ================================================================= *)
(** ** Facts about Python indexing *)

Lemma py_index_first {A : Type} (a : A) (l : list A) :
  py_index (a :: l) 0 = Ok a.
Proof.
  unfold py_index. cbn [List.length Z.ltb Z.compare].
  replace (Z.of_nat (S (List.length l)) <=? 0) with false; [reflexivity |].
  symmetry. apply Z.leb_gt. lia.
Qed.

Lemma nth_error_last {A : Type} (l : list A) (a d : A) :
  nth_error (a :: l) (List.length l) = Some (last (a :: l) d).
Proof.
  revert a. induction l as [| b l IH]; intros a; [reflexivity |].
  change (nth_error (a :: b :: l) (List.length (b :: l)))
    with (nth_error (b :: l) (List.length l)).
  rewrite (IH b). reflexivity.
Qed.

Lemma py_index_last {A : Type} (a : A) (l : list A) :
  py_index (a :: l) (-1) = Ok (last (a :: l) a).
Proof.
  unfold py_index. cbn [Z.ltb Z.compare].
  set (n := Z.of_nat (List.length (a :: l))).
  assert (Hn : n = Z.of_nat (List.length l) + 1)
    by (unfold n; cbn [List.length]; lia).
  replace (n + -1 <? 0) with false by (symmetry; apply Z.ltb_ge; lia).
  replace (n <=? n + -1) with false by (symmetry; apply Z.leb_gt; lia).
  cbn [orb]. replace (Z.to_nat (n + -1)) with (List.length l) by lia.
  rewrite (nth_error_last l a a). reflexivity.
Qed.

(* ================================================================= *)
(** ** The loop test *)

Section IsLoop.

Import ExactFacts.
Local Open Scope R_scope.

Lemma vabs_nonneg (v : R * R) : 0 <= vabs v.
Proof. apply hypot_nonneg. Qed.

Lemma arc_length_from_nonneg (rest : list (@Node R)) :
  forall prev, 0 <= arc_length_from prev rest.
Proof.
  induction rest as [| n rest IH]; intros prev; cbn [arc_length_from]; exact_arith.
  - lra.
  - pose proof (vabs_nonneg (vsub (node_p n) (node_p prev))).
    pose proof (IH n). lra.
Qed.

Lemma dec_5_3 : @dec R exact 5 3 = 5 / 1000.
Proof. reflexivity. Qed.

Lemma dec_5_4 : @dec R exact 5 4 = 5 / 10000.
Proof. reflexivity. Qed.

(** The scan answers [True] as soon as the running length exceeds [5e-3];
    the lengths being non-negative, that is when the whole length does. *)
Lemma loop_scan_total (rest : list (@Node R)) :
  forall (acc : R) (prev : Node),
    acc <= 5 / 1000 ->
    (loop_scan acc prev rest = true <-> 5 / 1000 < acc + arc_length_from prev rest).
Proof.
  induction rest as [| n rest IH]; intros acc prev Hacc;
    cbn [loop_scan arc_length_from].
  - exact_arith. split; [discriminate | lra].
  - rewrite dec_5_3. exact_arith.
    pose proof (arc_length_from_nonneg rest n) as Hrest.
    destruct (Exact.ltb (5 / 1000) (acc + vabs (vsub (node_p n) (node_p prev))))
      eqn:E.
    + apply ltb_true in E. split; [lra | reflexivity].
    + apply ltb_false in E. rewrite (IH _ n E). lra.
Qed.

(** C7: on a node list (not empty) [_is_loop] returns, and it returns
    [True] exactly when the first and the last node are no further apart
    than [max(5e-4, path_close_tol)] and the polygon through the nodes is
    longer than [5e-3]. *)
Theorem is_loop_iff (first : @Node R) (rest : list Node) (path_close_tol : R) :
  exists b : bool,
    _is_loop (first :: rest) path_close_tol = Ok b /\
    (b = true <->
     vabs (vsub (node_p first) (node_p (last (first :: rest) first)))
       <= Rmax (5 / 10000) path_close_tol /\
     5 / 1000 < arc_length (first :: rest)).
Proof.
  unfold _is_loop. rewrite py_index_first, py_index_last. cbn [bind tl].
  rewrite py_max_Rmax, dec_5_4. exact_arith.
  set (d := vabs (vsub (node_p first) (node_p (last (first :: rest) first)))).
  destruct (Exact.ltb (Rmax (5 / 10000) path_close_tol) d) eqn:E.
  - apply ltb_true in E. exists false. split; [reflexivity |].
    split; [discriminate | lra].
  - apply ltb_false in E. eexists. split; [reflexivity |].
    cbn [arc_length]. rewrite (loop_scan_total rest 0 first) by lra.
    split; [intros; split; lra | intros [_ ?]; lra].
Qed.

(** On the empty list the test raises. *)
Lemma is_loop_empty (path_close_tol : R) :
  _is_loop [] path_close_tol = Raise IndexError.
Proof. reflexivity. Qed.

End IsLoop.

(* ================================================================= *)
(** ** The arc-length parameter of a finished line *)

Section ArcParameter.

Import ExactFacts.
Local Open Scope R_scope.

Lemma last_map {A B : Type} (f : A -> B) (l : list A) (d : A) :
  last (map f l) (f d) = f (last l d).
Proof.
  induction l as [| a [| b l] IH]; try reflexivity.
  change (last (map f (a :: b :: l)) (f d)) with (last (map f (b :: l)) (f d)).
  rewrite IH. reflexivity.
Qed.

Lemma vabs_sym (u v : R * R) : vabs (vsub u v) = vabs (vsub v u).
Proof.
  unfold vabs, vsub. cbn [fst snd]. exact_arith. unfold Exact.hypot.
  f_equal. ring.
Qed.

Lemma cumulate_t (rest : list (@Node R)) :
  forall (acc : R) (prev : R * R),
    map node_t (cumulate acc prev rest) = map Some (running acc prev rest) /\
    map node_p (cumulate acc prev rest) = map node_p rest.
Proof.
  induction rest as [| n rest IH]; intros acc prev; [split; reflexivity |].
  cbn [cumulate running map set_t node_t node_p].
  destruct (IH (nadd acc (vabs (vsub prev (node_p n)))) (node_p n)) as [Ht Hp].
  rewrite Ht, Hp. split; reflexivity.
Qed.

(** The running lengths increase from [acc] to [acc] plus the length of the
    polygon. *)
Lemma running_increases (rest : list (@Node R)) :
  forall (acc : R) (prev : Node),
    StronglySorted Rle (acc :: running acc (node_p prev) rest) /\
    last (acc :: running acc (node_p prev) rest) 0
    = acc + arc_length_from prev rest.
Proof.
  induction rest as [| n rest IH]; intros acc prev.
  - cbn [running arc_length_from last]. exact_arith. split; [| lra].
    constructor; constructor.
  - cbn [running arc_length_from]. exact_arith.
    set (t := acc + vabs (vsub (node_p prev) (node_p n))).
    destruct (IH t n) as [Hsorted Hlast].
    assert (Ht : acc <= t)
      by (pose proof (vabs_nonneg (vsub (node_p prev) (node_p n))); unfold t; lra).
    split.
    + constructor; [exact Hsorted |].
      constructor; [exact Ht |].
      apply StronglySorted_inv in Hsorted. destruct Hsorted as [_ Hall].
      eapply Forall_impl; [| exact Hall]. cbn beta. intros x Hx. lra.
    + change (last (acc :: t :: running t (node_p n) rest) 0)
        with (last (t :: running t (node_p n) rest) 0).
      rewrite Hlast. unfold t.
      rewrite (vabs_sym (node_p prev) (node_p n)). lra.
Qed.

Lemma sorted_between (ts : list R) (a : R) :
  StronglySorted Rle (a :: ts) -> Forall (fun t => a <= t <= last (a :: ts) 0) (a :: ts).
Proof.
  revert a. induction ts as [| b ts IH]; intros a Hs.
  - constructor; [cbn; lra | constructor].
  - apply StronglySorted_inv in Hs. destruct Hs as [Hs Hall].
    specialize (IH b Hs).
    change (last (a :: b :: ts) 0) with (last (b :: ts) 0).
    assert (Hab : a <= b) by (inversion Hall; assumption).
    assert (Hbl : b <= last (b :: ts) 0) by (inversion IH; lra).
    constructor; [lra |].
    eapply Forall_impl; [| exact IH]. cbn beta. intros x Hx. lra.
Qed.

Lemma divide_t_values (length : R) (l : list (@Node R)) :
  forall ts : list R,
    map node_t l = map Some ts ->
    exists l',
      divide_t length l = Ok l' /\
      map node_t l' = map Some (map (fun t => t / length) ts) /\
      map node_p l' = map node_p l.
Proof.
  induction l as [| n l IH]; intros ts Hts.
  - destruct ts; [| discriminate]. exists []. repeat split.
  - destruct ts as [| t ts]; [discriminate |].
    cbn [map] in Hts. injection Hts as Ht Hts.
    destruct (IH ts Hts) as (l' & E & Ht' & Hp').
    cbn [divide_t]. unfold get_t. rewrite Ht, E. cbn [bind].
    eexists. split; [reflexivity |].
    cbn [map set_t node_t node_p]. rewrite Ht', Hp'. split; reflexivity.
Qed.

Lemma sorted_scaled (c : R) (ts : list R) :
  0 < c -> StronglySorted Rle ts ->
  StronglySorted Rle (map (fun t => t / c) ts).
Proof.
  intros Hc. induction 1 as [| a ts Hs IH Hall]; cbn [map]; constructor.
  - exact IH.
  - apply Forall_map. eapply Forall_impl; [| exact Hall]. cbn beta.
    intros x Hx. unfold Rdiv. apply Rmult_le_compat_r; [| exact Hx].
    left. apply Rinv_0_lt_compat. exact Hc.
Qed.

Lemma tag_corner_keeps (l : list (@Node R)) :
  map node_t (map tag_corner l) = map node_t l /\
  map node_p (map tag_corner l) = map node_p l.
Proof.
  induction l as [| n l [IHt IHp]]; [split; reflexivity |].
  cbn [map]. rewrite IHt, IHp. unfold tag_corner.
  destruct (node_corner n); split; reflexivity.
Qed.

(** C6: finishing a node list (not empty) succeeds and gives every node
    its parameter [t]: [t[0] = 0], [t] does not decrease along the nodes,
    and [t[N-1] = 1] when the polygon through the nodes has a length other
    than zero; when that length is zero every [t] is [0]. *)
Theorem finish_parameter (first : @Node R) (rest : list Node) :
  exists (done : list Node) (ts : list R),
    finish (first :: rest) = Ok done /\
    map node_p done = map node_p (first :: rest) /\
    map node_t done = map Some ts /\
    hd_error ts = Some 0 /\
    StronglySorted Rle ts /\
    (arc_length (first :: rest) <> 0 -> last ts 0 = 1) /\
    (arc_length (first :: rest) = 0 -> Forall (fun t => t = 0) ts).
Proof.
  unfold finish, add_lengths. cbn [bind]. exact_arith.
  set (first0 := set_t first 0).
  set (cum := cumulate 0 (node_p first) rest).
  set (run := running 0 (node_p first) rest).
  destruct (cumulate_t rest 0 (node_p first)) as [Hct Hcp].
  fold cum run in Hct, Hcp.
  destruct (running_increases rest 0 first) as [Hsorted Hlast].
  fold run in Hsorted, Hlast. rewrite Rplus_0_l in Hlast.
  cbn [arc_length].
  set (total := arc_length_from first rest) in *.
  pose proof (sorted_between run 0 Hsorted) as Hbetween. rewrite Hlast in Hbetween.
  assert (Hall : map node_t (first0 :: cum) = map Some (0 :: run))
    by (cbn [map]; rewrite Hct; reflexivity).
  unfold normalise. rewrite py_index_last. cbn [bind].
  assert (Hlen : node_t (last (first0 :: cum) first0) = Some total).
  { pose proof (last_map node_t (first0 :: cum) first0) as E.
    rewrite Hall in E. change (node_t first0) with (Some 0) in E.
    rewrite (last_map Some (0 :: run) 0), Hlast in E. symmetry. exact E. }
  unfold get_t at 1. rewrite Hlen.
  cbn [bind]. exact_arith.
  destruct (Exact.eqb total 0) eqn:Etotal; cbn [negb].
  - (* the polygon has no length *)
    apply eqb_true in Etotal. cbn [bind].
    destruct (tag_corner_keeps (first0 :: cum)) as [Ht Hp].
    exists (map tag_corner (first0 :: cum)), (0 :: run).
    rewrite Ht, Hp, Hall. cbn [map]. rewrite Hcp.
    repeat split; try assumption.
    + intros Hne. contradiction.
    + intros _. eapply Forall_impl; [| exact Hbetween]. cbn beta.
      intros x Hx. lra.
  - (* it has: every parameter is divided by it *)
    apply eqb_false in Etotal.
    assert (Hpos : 0 < total).
    { assert (0 <= total) by (inversion Hbetween; lra). lra. }
    destruct (divide_t_values total cum run Hct) as (cum' & E & Ht' & Hp').
    rewrite E. cbn [bind].
    destruct (tag_corner_keeps (first0 :: cum')) as [Ht Hp].
    exists (map tag_corner (first0 :: cum')), (map (fun t => t / total) (0 :: run)).
    rewrite Ht, Hp. cbn [map]. rewrite Ht', Hp', Hcp.
    replace (0 / total) with 0 by (unfold Rdiv; ring).
    repeat split.
    + replace (0 :: map (fun t => t / total) run)
        with (map (fun t => t / total) (0 :: run))
        by (cbn [map]; replace (0 / total) with 0 by (unfold Rdiv; ring); reflexivity).
      apply sorted_scaled; assumption.
    + intros _.
      replace (0 :: map (fun t => t / total) run)
        with (map (fun t => t / total) (0 :: run))
        by (cbn [map]; replace (0 / total) with 0 by (unfold Rdiv; ring); reflexivity).
      replace 0 with (0 / total) at 2 by (unfold Rdiv; ring).
      rewrite (last_map (fun t => t / total) (0 :: run) 0), Hlast.
      field. lra.
    + intros Hzero. contradiction.
Qed.

End ArcParameter.

Lemma bind_Ok {A B : Type} (c : result A) (k : A -> result B) (b : B) :
  bind c k = Ok b -> exists a, c = Ok a /\ k a = Ok b.
Proof. destruct c as [a | e]; [eauto | discriminate]. Qed.

(** Whatever the integrator and the directions, the nodes [_create_nodes]
    leaves in [self.nodes] have gone through [finish]. *)
Lemma create_nodes_finished {num : Type} `{Arith num}
    (part : vec -> num -> result (list Node)) (p_start : vec)
    (directions : string) (path_close_tol : num) (done : list Node) :
  _create_nodes part p_start directions path_close_tol = Ok done ->
  exists nodes, finish nodes = Ok done.
Proof.
  unfold _create_nodes. intros E. apply bind_Ok in E.
  destruct E as (nodes & _ & E). exists nodes. exact E.
Qed.

(* ================================================================= *)
(** ** Runs of the code in binary64 *)

Section Runs.

Local Open Scope float_scope.

(** Outside of the unit square, at [(2, 0.5)], the code returns
    [sqrt(4 + 0.25 + 1 + 0.25)]; the distance in the maximum norm is [1]. *)
Lemma out_of_bounds_binary64_run :
  _out_of_bounds None (2, 0.5) (Some (mkBounds 0 0 1 1))
  = Ok (PrimFloat.sqrt 5.5) /\
  Linf_signed_distance (2, 0.5) (mkBounds 0 0 1 1) = 1 /\
  PrimFloat.eqb (PrimFloat.sqrt 5.5) 1 = false.
Proof. repeat split; vm_compute; reflexivity. Qed.

(** Inside, the code and the distance agree. *)
Example out_of_bounds_inside :
  _out_of_bounds None (0.25, 0.5) (Some (mkBounds 0 0 1 1)) = Ok (-0.25) /\
  Linf_signed_distance (0.25, 0.5) (mkBounds 0 0 1 1) = -0.25.
Proof. split; vm_compute; reflexivity. Qed.

(** Two nodes at one point keep the parameters [0, 0]. *)
Lemma finish_binary64_run :
  exists done,
    finish stuck_nodes = Ok done /\
    List.length done = 2%nat /\
    map node_t done = [Some 0; Some 0] /\
    PrimFloat.eqb 0 1 = false.
Proof. eexists. repeat split; vm_compute; reflexivity. Qed.

(** A line with a length: the parameters are the running lengths over the
    whole length. *)
Example finish_3_4_5 :
  exists done,
    finish [ mkNode (0, 0) None (Some (3, 0)) None None;
             mkNode (3, 0) (Some (3, 0)) (Some (0, 4)) (Some true) None;
             mkNode (3, 4) (Some (0, 4)) None None None ] = Ok done /\
    map node_t done = [Some 0; Some (3 / 7); Some 1] /\
    map node_corner done = [Some false; Some true; Some false].
Proof. eexists. repeat split; vm_compute; reflexivity. Qed.

(** The loop test on a closed square of side [0.01] and on an open path. *)
Example is_loop_square :
  let n (x y : float) := mkNode (x, y) None None None None in
  _is_loop [n 0 0; n 0.01 0; n 0.01 0.01; n 0 0.01; n 0 0] 0.005 = Ok true /\
  _is_loop [n 0 0; n 0.01 0; n 0.01 0.01; n 0 0.01] 0.005 = Ok false /\
  _is_loop [n 0 0; n 0.001 0; n 0 0] 0.005 = Ok false.
Proof. repeat split; vm_compute; reflexivity. Qed.

(** Both directions: the backward part is reversed, its tangents turned,
    and the forward part appended without its first node. *)
Example create_nodes_both :
  exists done,
    _create_nodes (one_step (0, 0)) (0, 0) "both" 0.005 = Ok done /\
    map node_p done = [(-1, 0); (0, 0); (1, 0)] /\
    map node_v_in done = [None; Some (1, -0); Some (1, 0)] /\
    map node_v_out done = [Some (1, -0); Some (1, 0); None] /\
    map node_t done = [Some 0; Some 0.5; Some 1].
Proof. eexists. repeat split; vm_compute; reflexivity. Qed.

(** Dense output between two nodes: the Hermite interpolant at [t = 0.5]
    and [t = 0.25] of a straight segment. *)
Example get_position_midway :
  let nodes := [ mkNode (0, 0) None (Some (1, 0)) (Some false) (Some 0);
                 mkNode (1, 0) (Some (1, 0)) None (Some false) (Some 1) ] in
  get_position identity_interpolant nodes 0.5 = Ok (0.5, 0) /\
  get_position identity_interpolant nodes 0.25 = Ok (0.25, 0) /\
  get_position identity_interpolant nodes 1 = Ok (1, 0).
Proof. repeat split; vm_compute; reflexivity. Qed.

(** The deprecated dict form is converted element by element; a tuple that
    is too short raises. *)
Example Field_init_dict :
  Field_init (num := float)
    (ArgDict [("monopoles"%string, [OTuple [0; 0; 1]; OTuple [1; 0; -1]]);
              ("homogeneous"%string, [OTuple [0; 2]])])
  = Ok (mkField [monopole 0 0 1; monopole 1 0 (-1); homogeneous 0 2]) /\
  Field_init (num := float) (ArgDict [("monopoles"%string, [OTuple [0; 0]])])
  = Raise IndexError.
Proof. split; vm_compute; reflexivity. Qed.

End Runs.

(* ================================================================= *)
(** ** The same runs in exact arithmetic *)

Section ExactRuns.

Import ExactFacts.
Local Open Scope R_scope.

Lemma out_of_bounds_exact_run :
  _out_of_bounds None (2, / 2) (Some (mkBounds 0 0 1 1)) = Ok (sqrt (11 / 2)) /\
  Linf_signed_distance (2, / 2) (mkBounds 0 0 1 1) = 1 /\
  sqrt (11 / 2) <> 1.
Proof.
  split; [| split].
  - unfold _out_of_bounds. cbn [bind].
    rewrite (outside_test (2, / 2) (mkBounds 0 0 1 1))
      by (unfold inside; cbn [fst snd b_x0 b_x1 b_y0 b_y1]; lra).
    unfold py_sqrt. cbn [powi fst snd b_x0 b_x1 b_y0 b_y1]. exact_arith.
    replace (1 * (2 - 0) * (2 - 0) + 1 * (/ 2 - 0) * (/ 2 - 0)
             + 1 * (1 - 2) * (1 - 2) + 1 * (1 - / 2) * (1 - / 2))
      with (11 / 2) by field.
    replace (Exact.ltb (11 / 2) 0) with false
      by (symmetry; apply ltb_false; lra).
    reflexivity.
  - unfold Linf_signed_distance. cbn [fst snd b_x0 b_x1 b_y0 b_y1].
    rewrite !py_max_Rmax. exact_arith.
    unfold Rmax. repeat destruct (Rle_dec _ _); lra.
  - intros E. assert (H : sqrt (11 / 2) * sqrt (11 / 2) = 11 / 2)
      by (apply sqrt_sqrt; lra).
    rewrite E in H. lra.
Qed.

Lemma finish_exact_run :
  exists done,
    finish [ mkNode (0, 0) None (Some (0, 0)) None None;
             mkNode (0, 0) (Some (0, 0)) None None None ] = Ok done /\
    map node_t done = [Some 0; Some 0].
Proof.
  assert (E : 0 + vabs (vsub (0, 0) (0, 0)) = 0).
  { unfold vabs, vsub. cbn [fst snd]. exact_arith.
    rewrite Rminus_diag, hypot_zero. lra. }
  unfold finish, add_lengths. cbn [bind cumulate node_p]. exact_arith.
  rewrite E.
  unfold normalise. rewrite py_index_last. cbn [bind last get_t set_t node_t].
  exact_arith. rewrite eqb_zero_zero.
  cbn [negb bind map tag_corner node_corner node_t set_t].
  eexists. split; reflexivity.
Qed.

End ExactRuns.

(** C4, as stated, fails outside of the rectangle: for the unit square and
    the point [(2, 0.5)] the code returns [sqrt(5.5)], which is not the
    distance [1] of the point to the square in the maximum norm; in
    binary64 and in exact arithmetic. *)
Lemma out_of_bounds_not_Linf :
  (_out_of_bounds None (2, 0.5)%float (Some (mkBounds 0 0 1 1)%float)
   = Ok (PrimFloat.sqrt 5.5) /\
   Linf_signed_distance (2, 0.5)%float (mkBounds 0 0 1 1)%float = 1%float /\
   PrimFloat.eqb (PrimFloat.sqrt 5.5) 1 = false) /\
  (_out_of_bounds None (2, / 2)%R (Some (mkBounds 0 0 1 1)%R)
   = Ok (sqrt (11 / 2)) /\
   Linf_signed_distance (2, / 2)%R (mkBounds 0 0 1 1)%R = 1%R /\
   sqrt (11 / 2) <> 1%R).
Proof.
  split; [exact out_of_bounds_binary64_run | exact out_of_bounds_exact_run].
Qed.

(** C6, as stated, fails on a line of length zero: it has two nodes and
    the parameter of the last one is [0], not [1]; in binary64 and in
    exact arithmetic. *)
Lemma finish_zero_length :
  (exists done,
     finish stuck_nodes = Ok done /\
     List.length done = 2%nat /\
     map node_t done = [Some 0%float; Some 0%float] /\
     PrimFloat.eqb 0 1 = false) /\
  (exists done,
     finish [ mkNode (0, 0)%R None (Some (0, 0)%R) None None;
              mkNode (0, 0)%R (Some (0, 0)%R) None None None ] = Ok done /\
     map node_t done = [Some 0%R; Some 0%R]).
Proof.
  split; [exact finish_binary64_run | exact finish_exact_run].
Qed.

(* ================================================================= *)
(** ** Superposition *)

Section Accumulation.

Context {num : Type} `{Arith num}.
Variable ext : @extended num.

(** Only the branch that differentiates the potential reads [self]. *)
Lemma F_term_self (self self' : Field) (el : element) (xy : vec) :
  by_potential el = false ->
  F_term ext self el xy = F_term ext self' el xy.
Proof.
  destruct el as [kind par]. unfold by_potential, F_term.
  destruct (String.eqb kind "custom"); [| reflexivity].
  destruct (has_key par "f"); cbn [negb andb]; [reflexivity |].
  destruct (has_key par "F"); cbn [negb andb]; [reflexivity |].
  destruct (has_key par "V"); [discriminate | reflexivity].
Qed.

Lemma F_steps_self (self self' : Field) (xy : vec) (l : list element) :
  Forall (fun el => by_potential el = false) l ->
  forall acc,
    fold_left (F_step ext self xy) l acc = fold_left (F_step ext self' xy) l acc.
Proof.
  induction 1 as [| el l Hel _ IH]; intros acc; [reflexivity |].
  cbn [fold_left]. unfold F_step at 2 4.
  rewrite (F_term_self self self' el xy Hel). apply IH.
Qed.

(** In any arithmetic: the field of [A ++ B] is the field of [A] with the
    contributions of [B] added to it one after the other. *)
Lemma F_app_accumulates (A B : list element) (xy : vec) :
  Forall (fun el => by_potential el = false) (A ++ B) ->
  F ext (mkField (A ++ B)) xy
  = fold_left (F_step ext (mkField B) xy) B (F ext (mkField A) xy).
Proof.
  intros Hall. apply Forall_app in Hall. destruct Hall as [HA HB].
  unfold F. cbn [elements]. rewrite fold_left_app.
  rewrite (F_steps_self (mkField (A ++ B)) (mkField A) xy A HA).
  apply (F_steps_self (mkField (A ++ B)) (mkField B) xy B HB).
Qed.

End Accumulation.

Section Superposition.

Local Open Scope R_scope.

Variable ext : @extended R.

Lemma vadd_assoc (u v w : R * R) : vadd (vadd u v) w = vadd u (vadd v w).
Proof. unfold vadd. cbn [fst snd]. exact_arith. f_equal; ring. Qed.

Lemma vadd_zeros_l (u : R * R) : vadd zeros2 u = u.
Proof.
  destruct u as [u0 u1]. unfold vadd, zeros2. cbn [fst snd]. exact_arith.
  f_equal; ring.
Qed.

Lemma vadd_zeros_r (u : R * R) : vadd u zeros2 = u.
Proof.
  destruct u as [u0 u1]. unfold vadd, zeros2. cbn [fst snd]. exact_arith.
  f_equal; ring.
Qed.

(** In exact arithmetic the accumulator can be split off. *)
Lemma F_steps_from (self : Field) (xy : R * R) (l : list element) :
  forall acc,
    fold_left (F_step ext self xy) l acc
    = vadd acc (fold_left (F_step ext self xy) l zeros2).
Proof.
  induction l as [| el l IH]; intros acc; cbn [fold_left].
  - symmetry. apply vadd_zeros_r.
  - rewrite (IH (F_step ext self xy acc el)),
            (IH (F_step ext self xy zeros2 el)).
    unfold F_step. destruct (F_term ext self el xy) as [[v |] | e].
    + rewrite vadd_zeros_l. apply vadd_assoc.
    + rewrite vadd_zeros_l. reflexivity.
    + rewrite vadd_zeros_l. reflexivity.
Qed.

(** C1: superposition in exact arithmetic.  For element lists without a
    custom element that is evaluated through its potential, the field of
    the concatenated list is the sum of the two fields. *)
Theorem superposition_exact (A B : list element) (xy : R * R) :
  Forall (fun el => by_potential el = false) (A ++ B) ->
  F ext (mkField (A ++ B)) xy
  = vadd (F ext (mkField A) xy) (F ext (mkField B) xy).
Proof.
  intros Hall. rewrite (F_app_accumulates ext A B xy Hall).
  apply F_steps_from.
Qed.

End Superposition.

(** A homogeneous field, and a monopole with another homogeneous field,
    seen from [(3, 4)]. *)
Lemma superposition_exact_witness :
  let A : list (@element R) := [homogeneous 1 0]%R in
  let B : list (@element R) := [monopole 0 0 1; homogeneous 0 2]%R in
  F (num := R) no_extended (mkField (A ++ B)) (3, 4)%R
  = vadd (F (num := R) no_extended (mkField A) (3, 4)%R)
         (F (num := R) no_extended (mkField B) (3, 4)%R).
Proof.
  apply superposition_exact. repeat constructor.
Defined.

Section SuperpositionRuns.

Local Open Scope float_scope.

(** Rounding: adding [1] twice to [2^53] leaves it unchanged, adding
    [1 + 1] does not, so the two sides differ by [2], with every value
    finite. *)
Lemma superposition_rounding_run :
  let A : list (@element float) := [homogeneous big 0] in
  let B : list (@element float) := [homogeneous 1 0; homogeneous 1 0] in
  F (num := float) no_extended (mkField (A ++ B)) (0, 0) = (big, 0) /\
  vadd (F (num := float) no_extended (mkField A) (0, 0))
       (F (num := float) no_extended (mkField B) (0, 0))
  = (big + 2, 0) /\
  PrimFloat.leb (abs (big - (big + 2))) (dec 1 12) = false.
Proof. repeat split; vm_compute; reflexivity. Qed.

(** Potential: the branch of a custom element given by ['V']
    differentiates the potential of the whole field, so a homogeneous field
    beside it is counted twice. *)
Lemma superposition_potential_run :
  let A : list (@element float) := [custom_V (fun _ => Ok 0)] in
  let B : list (@element float) := [homogeneous 1 0] in
  F (num := float) no_extended (mkField (A ++ B)) (0, 0) = (2, 0) /\
  vadd (F (num := float) no_extended (mkField A) (0, 0))
       (F (num := float) no_extended (mkField B) (0, 0))
  = (1, 0).
Proof. repeat split; vm_compute; reflexivity. Qed.

End SuperpositionRuns.

Section SuperpositionExactRun.

Local Open Scope R_scope.

(** The same in exact arithmetic. *)
Lemma superposition_potential_exact_run :
  let A : list (@element R) := [custom_V (fun _ => Ok 0)] in
  let B : list (@element R) := [homogeneous 1 0] in
  F (num := R) no_extended (mkField (A ++ B)) (0, 0) = (2, 0) /\
  vadd (F (num := R) no_extended (mkField A) (0, 0))
       (F (num := R) no_extended (mkField B) (0, 0)) = (1, 0).
Proof.
  cbv zeta.
  unfold F, F_step, F_term, V, V_step, V_term, custom_V, homogeneous,
    call2, call_scal, some, getnum, has_key, V_homogeneous, F_homogeneous,
    vadd, vsub, zeros2, dec.
  cbn [app elements fold_left lookup String.eqb Ascii.eqb Bool.eqb bind
       fst snd andb negb].
  exact_arith. simpl (10 ^ 6)%Z.
  split; f_equal; field.
Qed.

End SuperpositionExactRun.

(** C1, as stated, fails in two ways.  In binary64 the two sides differ by
    more than [1e-12] through rounding, with every value finite.  And with
    a custom element given by its potential the two sides differ already
    in exact arithmetic: [(2, 0)] against [(1, 0)]. *)
Lemma superposition_fails :
  (let A : list (@element float) := [homogeneous big 0%float] in
   let B : list (@element float) :=
     [homogeneous 1%float 0%float; homogeneous 1%float 0%float] in
   F (num := float) no_extended (mkField (A ++ B)) (0, 0)%float
   = (big, 0%float) /\
   vadd (F (num := float) no_extended (mkField A) (0, 0)%float)
        (F (num := float) no_extended (mkField B) (0, 0)%float)
   = ((big + 2)%float, 0%float) /\
   PrimFloat.leb (abs (big - (big + 2))%float) (dec 1 12) = false) /\
  (let A : list (@element float) := [custom_V (fun _ => Ok 0%float)] in
   let B : list (@element float) := [homogeneous 1%float 0%float] in
   F (num := float) no_extended (mkField (A ++ B)) (0, 0)%float
   = (2, 0)%float /\
   vadd (F (num := float) no_extended (mkField A) (0, 0)%float)
        (F (num := float) no_extended (mkField B) (0, 0)%float)
   = (1, 0)%float) /\
  (let A : list (@element R) := [custom_V (fun _ => Ok 0%R)] in
   let B : list (@element R) := [homogeneous 1%R 0%R] in
   F (num := R) no_extended (mkField (A ++ B)) (0, 0)%R = (2, 0)%R /\
   vadd (F (num := R) no_extended (mkField A) (0, 0)%R)
        (F (num := R) no_extended (mkField B) (0, 0)%R) = (1, 0)%R).
Proof.
  split; [exact superposition_rounding_run |].
  split; [exact superposition_potential_run |
          exact superposition_potential_exact_run].
Qed.

(* ================================================================= *)
(** ** Facts about lists *)

Lemma py_index_nth {A : Type} (l : list A) (i : nat) (a : A) :
  nth_error l i = Some a -> py_index l (Z.of_nat i) = Ok a.
Proof.
  intros E. unfold py_index.
  assert (Hi : (i < List.length l)%nat) by (apply nth_error_Some; congruence).
  replace (Z.of_nat i <? 0) with false by (symmetry; apply Z.ltb_ge; lia).
  replace (0 <=? Z.of_nat i) with true by (symmetry; apply Z.leb_le; lia).
  replace (Z.of_nat i <? 0) with false by (symmetry; apply Z.ltb_ge; lia).
  replace (Z.of_nat (List.length l) <=? Z.of_nat i) with false
    by (symmetry; apply Z.leb_gt; lia).
  cbn [orb]. rewrite Nat2Z.id, E. reflexivity.
Qed.

Lemma last_default {A : Type} (a : A) (l : list A) (d d' : A) :
  last (a :: l) d = last (a :: l) d'.
Proof.
  revert a. induction l as [| b l IH]; intros a; [reflexivity |].
  change (last (a :: b :: l) d) with (last (b :: l) d).
  change (last (a :: b :: l) d') with (last (b :: l) d'). apply IH.
Qed.



(* ================================================================= *)
(** ** The order of binary64 *)

Module Binary64Order.

(** [<=] is total on the floats that are not NaN. *)
Lemma SFleb_total (x y : spec_float) :
  x <> S754_nan -> y <> S754_nan -> SFleb x y = false -> SFleb y x = true.
Proof.
  unfold SFleb.
  destruct x as [s1 | s1 | | s1 m1 e1], y as [s0 | s0 | | s0 m0 e0]; simpl;
    intros Hx Hy; try congruence;
    try destruct s1; try destruct s0; simpl; try reflexivity; try discriminate.
  - pose proof (Pos.compare_cont_antisym m1 m0 Eq) as E. simpl in E.
    rewrite (Z.compare_antisym e1 e0), <- E.
    destruct (e1 ?= e0)%Z; simpl; try discriminate; try reflexivity.
    destruct (Pos.compare_cont Eq m1 m0); simpl; try discriminate; reflexivity.
  - pose proof (Pos.compare_cont_antisym m1 m0 Eq) as E. simpl in E.
    rewrite (Z.compare_antisym e1 e0), <- E.
    destruct (e1 ?= e0)%Z; simpl; try discriminate; try reflexivity.
    destruct (Pos.compare_cont Eq m1 m0); simpl; try discriminate; reflexivity.
Qed.

Lemma is_nan_spec (x : float) : Prim2SF x = S754_nan -> is_nan x = true.
Proof.
  intros E. unfold is_nan. rewrite eqb_spec, E. reflexivity.
Qed.

(** A value that fails both tests of a clamp lies between the limits, or
    it is NaN. *)
Lemma between_limits (c lo hi : float) :
  PrimFloat.leb lo hi = true ->
  PrimFloat.leb hi c = false -> PrimFloat.leb c lo = false ->
  is_nan c = true \/ (PrimFloat.leb lo c = true /\ PrimFloat.leb c hi = true).
Proof.
  intros Hlh Hhi Hlo.
  destruct (Prim2SF c) eqn:Ec; [right | right | left; now apply is_nan_spec | right].
  all: rewrite !leb_spec in *; rewrite Ec in *.
  all: assert (Hl : Prim2SF lo <> S754_nan)
         by (intros E; rewrite E in Hlh; discriminate).
  all: assert (Hh : Prim2SF hi <> S754_nan)
         by (intros E; rewrite E in Hlh; destruct (Prim2SF lo); discriminate).
  all: split; apply SFleb_total; try assumption; discriminate.
Qed.

End Binary64Order.

(* ================================================================= *)
(** ** The angle helpers [cosv] and [sinv] *)

Section Angles.

Import Binary64Order.

(** The clamp of [cosv] and [sinv]. *)
Lemma clamped (c : float) :
  let r := if PrimFloat.leb 1 c then 1%float
           else if PrimFloat.leb c (-1) then (-1)%float else c in
  is_nan r = true \/
  (PrimFloat.leb (-1) r = true /\ PrimFloat.leb r 1 = true).
Proof.
  cbv zeta.
  destruct (PrimFloat.leb 1 c) eqn:Hhi; [right; split; reflexivity |].
  destruct (PrimFloat.leb c (-1)) eqn:Hlo; [right; split; reflexivity |].
  apply between_limits; [reflexivity | assumption | assumption].
Qed.

(** X1: [cosv] and [sinv] never return a value outside of [[-1, 1]]: for
    all vectors of floats the result lies in that interval, or it is NaN
    (which the clamp lets through). *)
Theorem cosv_sinv_range (v1 v2 : float * float) :
  (is_nan (cosv v1 v2) = true \/
   (PrimFloat.leb (-1) (cosv v1 v2) = true /\
    PrimFloat.leb (cosv v1 v2) 1 = true)) /\
  (is_nan (sinv v1 v2) = true \/
   (PrimFloat.leb (-1) (sinv v1 v2) = true /\
    PrimFloat.leb (sinv v1 v2) 1 = true)).
Proof.
  unfold cosv, sinv.
  change (lit 1) with 1%float. change (nopp 1%float) with (-1)%float.
  cbn [neqb nleb binary64].
  split.
  - destruct (PrimFloat.eqb _ (lit 0)); [right; split; reflexivity |].
    apply clamped.
  - destruct (PrimFloat.eqb _ (lit 0)); [right; split; reflexivity |].
    apply clamped.
Qed.

End Angles.

(* ================================================================= *)
(** ** Lengths and unit vectors in exact arithmetic *)

Module ExactVectors.

Import ExactFacts.
Local Open Scope R_scope.

Lemma hypot_sqr (x y : R) : Exact.hypot x y * Exact.hypot x y = x * x + y * y.
Proof. unfold Exact.hypot. apply sqrt_sqrt. nra. Qed.

Lemma hypot_eq_0 (x y : R) : Exact.hypot x y = 0 -> x = 0 /\ y = 0.
Proof.
  intros E. pose proof (hypot_sqr x y) as S. rewrite E in S. split; nra.
Qed.

Lemma hypot_pos (x y : R) : (x, y) <> (0, 0) -> 0 < Exact.hypot x y.
Proof.
  intros Hne. destruct (hypot_nonneg x y) as [Hlt | E]; [assumption |].
  symmetry in E. apply hypot_eq_0 in E. destruct E; subst. contradiction.
Qed.

(** A non-negative number is determined by its square. *)
Lemma hypot_unique (x y d : R) : 0 <= d -> d * d = x * x + y * y -> Exact.hypot x y = d.
Proof.
  intros Hd E. unfold Exact.hypot. rewrite <- E. apply sqrt_square. assumption.
Qed.

Lemma hypot_scale (c x y : R) :
  Exact.hypot (c * x) (c * y) = Rabs c * Exact.hypot x y.
Proof.
  apply hypot_unique.
  - apply Rmult_le_pos; [apply Rabs_pos | apply hypot_nonneg].
  - pose proof (hypot_sqr x y) as S.
    assert (Hc : Rabs c * Rabs c = c * c).
    { unfold Rabs. destruct (Rcase_abs c); ring. }
    nra.
Qed.

Lemma hypot_opp (x y : R) : Exact.hypot (- x) (- y) = Exact.hypot x y.
Proof. unfold Exact.hypot. f_equal. ring. Qed.

(** Dividing a vector by its length gives a unit vector. *)
Lemma hypot_normalised (x y : R) :
  Exact.hypot x y <> 0 ->
  Exact.hypot (x / Exact.hypot x y) (y / Exact.hypot x y) = 1.
Proof.
  intros Hd. apply hypot_unique; [lra |].
  pose proof (hypot_sqr x y) as S. field_simplify_eq; [nra | assumption].
Qed.

(** Decimal literals of the source. *)
Lemma dec_1_5 : @dec R exact 1 5 = 1 / 100000.
Proof. reflexivity. Qed.

Lemma dec_1_6 : @dec R exact 1 6 = 1 / 1000000.
Proof. reflexivity. Qed.

End ExactVectors.

Section UnitVectors.

Import ExactFacts ExactVectors.
Local Open Scope R_scope.

(** X3: [vnorm] returns a vector of length 1 that points along its argument,
    and returns the zero vector unchanged. *)
Theorem vnorm_unit (x : R * R) :
  (x = (0, 0) /\ vnorm x = (0, 0)) \/
  (x <> (0, 0) /\ vabs (vnorm x) = 1 /\ vscale (vabs x) (vnorm x) = x).
Proof.
  destruct x as [a b]. unfold vnorm, vabs, vscale. cbn [fst snd]. exact_arith.
  destruct (Exact.eqb (Exact.hypot a b) 0) eqn:E; cbn [negb].
  - left. apply eqb_true, hypot_eq_0 in E. destruct E; subst. split; reflexivity.
  - right. apply eqb_false in E. split; [| split].
    + intros Hz. injection Hz as -> ->. apply E, hypot_zero.
    + cbn [fst snd]. apply hypot_normalised, E.
    + cbn [fst snd]. f_equal; field; assumption.
Qed.

Variable ext : @extended R.

(** X4: [Fn] is the direction of the field: a vector of length 1 along [F],
    or the zero vector where the field vanishes. *)
Theorem Fn_unit_or_zero (self : Field) (xy : R * R) :
  (F ext self xy = (0, 0) /\ Fn ext self xy = (0, 0)) \/
  (F ext self xy <> (0, 0) /\ vabs (Fn ext self xy) = 1 /\
   vscale (vabs (F ext self xy)) (Fn ext self xy) = F ext self xy).
Proof.
  unfold Fn. destruct (F ext self xy) as [a b].
  unfold vabs, vscale, vdivs, zeros2. cbn [fst snd]. exact_arith.
  destruct (Exact.eqb (Exact.hypot a b) 0) eqn:E; cbn [negb].
  - left. apply eqb_true, hypot_eq_0 in E. destruct E; subst. split; reflexivity.
  - right. apply eqb_false in E. split; [| split].
    + intros Hz. injection Hz as -> ->. apply E, hypot_zero.
    + cbn [fst snd]. apply hypot_normalised, E.
    + cbn [fst snd]. f_equal; field; assumption.
Qed.

End UnitVectors.

Section AnglesExact.

Import ExactFacts ExactVectors.
Local Open Scope R_scope.

(** A quotient of absolute value at most 1 passes the clamp unchanged. *)
Lemma clamp_idle (c : R) :
  c * c <= 1 ->
  (if Exact.leb 1 c then 1
   else if Exact.leb c (Ropp 1) then Ropp 1 else c) = c.
Proof.
  intros Hc.
  destruct (Exact.leb 1 c) eqn:Hhi.
  - apply leb_true in Hhi. nra.
  - destruct (Exact.leb c (Ropp 1)) eqn:Hlo; [| reflexivity].
    apply leb_true in Hlo. nra.
Qed.

(** X2: [cosv] and [sinv] are the cosine and the sine of the angle from [v1]
    to [v2]: the scalar and the cross product over the product of the
    lengths, with squares that sum to 1.  When one of the vectors is zero
    both return 1. *)
Theorem cosv_sinv_values (v1 v2 : R * R) :
  ((v1 = (0, 0) \/ v2 = (0, 0)) /\ cosv v1 v2 = 1 /\ sinv v1 v2 = 1) \/
  (v1 <> (0, 0) /\ v2 <> (0, 0) /\
   cosv v1 v2 = (fst v1 * fst v2 + snd v1 * snd v2) / (vabs v1 * vabs v2) /\
   sinv v1 v2 = (fst v1 * snd v2 - snd v1 * fst v2) / (vabs v1 * vabs v2) /\
   cosv v1 v2 ^ 2 + sinv v1 v2 ^ 2 = 1).
Proof.
  destruct v1 as [a b], v2 as [c d]. unfold cosv, sinv, vabs.
  cbn [fst snd]. exact_arith.
  pose proof (hypot_sqr a b) as S1. pose proof (hypot_sqr c d) as S2.
  pose proof (hypot_nonneg a b) as N1. pose proof (hypot_nonneg c d) as N2.
  set (h1 := Exact.hypot a b) in *. set (h2 := Exact.hypot c d) in *.
  destruct (Exact.eqb (h1 * h2) 0) eqn:E.
  - left. apply eqb_true in E. split; [| split; reflexivity].
    apply Rmult_integral in E. destruct E as [E | E].
    + left. apply hypot_eq_0 in E. destruct E; subst. reflexivity.
    + right. apply hypot_eq_0 in E. destruct E; subst. reflexivity.
  - right. apply eqb_false in E.
    assert (H1 : h1 <> 0) by (intros Z; apply E; rewrite Z; ring).
    assert (H2 : h2 <> 0) by (intros Z; apply E; rewrite Z; ring).
    assert (Hsum : ((a * c + b * d) / (h1 * h2)) ^ 2
                   + ((a * d - b * c) / (h1 * h2)) ^ 2 = 1).
    { assert (Hprod : (a * c + b * d) ^ 2 + (a * d - b * c) ^ 2
                      = (h1 * h2) ^ 2).
      { replace ((a * c + b * d) ^ 2 + (a * d - b * c) ^ 2)
          with ((a * a + b * b) * (c * c + d * d)) by ring.
        rewrite <- S1, <- S2. ring. }
      replace (((a * c + b * d) / (h1 * h2)) ^ 2
               + ((a * d - b * c) / (h1 * h2)) ^ 2)
        with (((a * c + b * d) ^ 2 + (a * d - b * c) ^ 2) / (h1 * h2) ^ 2)
        by (field; split; assumption).
      rewrite Hprod. field. split; assumption. }
    set (cv := (a * c + b * d) / (h1 * h2)) in *.
    set (sv := (a * d - b * c) / (h1 * h2)) in *.
    assert (Hc : cv * cv <= 1) by (pose proof (pow2_ge_0 sv); nra).
    assert (Hs : sv * sv <= 1) by (pose proof (pow2_ge_0 cv); nra).
    rewrite (clamp_idle cv Hc), (clamp_idle sv Hs).
    repeat split; try assumption.
    + intros Z. injection Z as -> ->. apply H1. apply hypot_zero.
    + intros Z. injection Z as -> ->. apply H2. apply hypot_zero.
Qed.

End AnglesExact.

(* ================================================================= *)
(** ** Rotation *)

Section Rotation.

Import ExactFacts ExactVectors.
Local Open Scope R_scope.

(** X26: With the sine and the cosine of the reals, [rot] is the rotation
    by [phi]: it keeps the length of the vector, two rotations compose to
    the rotation by the sum of the angles, and the rotation by [0] is the
    identity. *)
Theorem rot_is_rotation (xy : R * R) (phi psi : R) :
  vabs (rot sin cos xy phi) = vabs xy /\
  rot sin cos (rot sin cos xy phi) psi = rot sin cos xy (phi + psi) /\
  rot sin cos xy 0 = xy.
Proof.
  destruct xy as [x y]. unfold rot, vabs. cbn [fst snd]. exact_arith.
  pose proof (sin2_cos2 phi) as Hunit. unfold Rsqr in Hunit.
  split; [| split].
  - apply hypot_unique; [apply hypot_nonneg |].
    rewrite hypot_sqr.
    replace ((cos phi * x - sin phi * y) * (cos phi * x - sin phi * y)
             + (cos phi * y + sin phi * x) * (cos phi * y + sin phi * x))
      with ((sin phi * sin phi + cos phi * cos phi) * (x * x + y * y)) by ring.
    rewrite Hunit. ring.
  - rewrite sin_plus, cos_plus. apply f_equal2; ring.
  - rewrite sin_0, cos_0. apply f_equal2; ring.
Qed.

End Rotation.

(* ================================================================= *)
(** ** The singular points of the other point sources *)

Section OtherSingularPoints.

Import Binary64 Binary64Facts.

(** X5: Evaluated at their own position (finite coordinates), the field of a
    quadrupole, of a wire and of a charged wire is the zero vector, the
    field of a 2D dipole is its moment, and the potentials of a dipole, a
    2D dipole and a quadrupole are zero; none of them raises. *)
Theorem other_singular_points (x y px py Qxx Qxy Qyy I q : float) :
  finite x = true -> finite y = true ->
  F_dipole2d (x, y) x y px py = Ok (px, py) /\
  F_quadrupole (x, y) x y Qxx Qxy Qyy = Ok (0, 0)%float /\
  F_wire (x, y) x y I = Ok (0, 0)%float /\
  F_charged_wire (x, y) x y q = Ok (0, 0)%float /\
  V_dipole (x, y) x y px py = Ok 0%float /\
  V_dipole2d (x, y) x y px py = Ok 0%float /\
  V_quadrupole (x, y) x y Qxx Qxy Qyy = Ok 0%float.
Proof.
  intros Hx Hy.
  unfold F_dipole2d, F_quadrupole, F_wire, F_charged_wire, V_dipole,
    V_dipole2d, V_quadrupole.
  cbn [fst snd nsub binary64].
  rewrite (sub_diag x Hx), (sub_diag y Hy).
  repeat split; reflexivity.
Qed.

End OtherSingularPoints.

(** The source at [(1.5, -2)]. *)
Lemma other_singular_points_witness :
  F_dipole2d (1.5, -2)%float 1.5%float (-2)%float 0.5%float 4%float
  = Ok (0.5, 4)%float /\
  F_quadrupole (1.5, -2)%float 1.5%float (-2)%float 1%float 2%float 3%float
  = Ok (0, 0)%float /\
  F_wire (1.5, -2)%float 1.5%float (-2)%float 7%float = Ok (0, 0)%float /\
  F_charged_wire (1.5, -2)%float 1.5%float (-2)%float 8%float
  = Ok (0, 0)%float /\
  V_dipole (1.5, -2)%float 1.5%float (-2)%float 0.5%float 4%float
  = Ok 0%float /\
  V_dipole2d (1.5, -2)%float 1.5%float (-2)%float 0.5%float 4%float
  = Ok 0%float /\
  V_quadrupole (1.5, -2)%float 1.5%float (-2)%float 1%float 2%float 3%float
  = Ok 0%float.
Proof.
  apply (other_singular_points 1.5 (-2) 0.5 4 1 2 3 7 8); vm_compute; reflexivity.
Defined.

(* ================================================================= *)
(** ** The fields of the point sources, away from the source *)

Section PointSources.

Import ExactFacts ExactVectors.
Local Open Scope R_scope.

Lemma py_pow_exact (d : R) (n : nat) : py_pow d n = Ok (powi d n).
Proof. reflexivity. Qed.

Lemma powi_pow (d : R) (n : nat) : powi d n = d ^ n.
Proof.
  induction n as [| n IH]; cbn [powi]; exact_arith; [reflexivity |].
  rewrite IH. simpl. ring.
Qed.

Lemma py_div_exact (x y : R) : y <> 0 -> py_div x y = Ok (x / y).
Proof.
  intros Hy. unfold py_div. exact_arith.
  apply eqb_false in Hy. rewrite Hy. reflexivity.
Qed.

Lemma neqb_exact (d : R) : d <> 0 -> negb (Exact.eqb d 0) = true.
Proof. intros Hd. apply eqb_false in Hd. rewrite Hd. reflexivity. Qed.

(** The field of a monopole away from it. *)
Lemma F_monopole_value (r0 r1 x y Q : R) :
  (r0, r1) <> (0, 0) ->
  F_monopole (x + r0, y + r1) x y Q
  = Ok (Q / (4 * PI * Exact.hypot r0 r1 ^ 3) * r0,
        Q / (4 * PI * Exact.hypot r0 r1 ^ 3) * r1).
Proof.
  intros Hr. apply hypot_pos in Hr. unfold F_monopole. cbn [fst snd]. exact_arith.
  replace (x + r0 - x) with r0 by ring. replace (y + r1 - y) with r1 by ring.
  set (d := Exact.hypot r0 r1) in *.
  rewrite neqb_exact by lra. rewrite py_pow_exact, powi_pow. cbn [bind].
  exact_arith. pose proof PI_RGT_0.
  rewrite py_div_exact; [reflexivity |].
  apply Rgt_not_eq. apply Rmult_gt_0_compat; [lra | apply pow_lt; assumption].
Qed.

(** X6: The inverse-square law: at a point other than its position a monopole
    of charge [Q] gives a field of magnitude [|Q| / (4 pi d^2)], directed
    along the line from the charge to the point, away from a positive
    charge. *)
Theorem F_monopole_inverse_square (xy : R * R) (x y Q : R) :
  xy <> (x, y) ->
  let r := vsub xy (x, y) in
  exists Fxy,
    F_monopole xy x y Q = Ok Fxy /\
    vabs Fxy = Rabs Q / (4 * PI * vabs r ^ 2) /\
    fst Fxy * snd r - snd Fxy * fst r = 0 /\
    0 <= Q * (fst Fxy * fst r + snd Fxy * snd r).
Proof.
  destruct xy as [p0 p1]. intros Hne. cbv zeta.
  unfold vsub, vabs. cbn [fst snd]. exact_arith.
  set (r0 := p0 - x). set (r1 := p1 - y).
  assert (Hr : (r0, r1) <> (0, 0)).
  { intros E. injection E as E0 E1. apply Hne. unfold r0, r1 in *.
    f_equal; lra. }
  replace p0 with (x + r0) by (unfold r0; ring).
  replace p1 with (y + r1) by (unfold r1; ring).
  rewrite (F_monopole_value r0 r1 x y Q Hr).
  pose proof (hypot_pos r0 r1 Hr) as Hd. pose proof (hypot_sqr r0 r1) as Hs.
  pose proof PI_RGT_0 as Hpi.
  set (d := Exact.hypot r0 r1) in *.
  eexists. split; [reflexivity |]. cbn [fst snd].
  assert (Hd3 : 0 < 4 * PI * d ^ 3).
  { apply Rmult_lt_0_compat; [lra | apply pow_lt; assumption]. }
  split; [| split].
  - rewrite hypot_scale. fold d.
    unfold Rdiv at 1. rewrite Rabs_mult, (Rabs_inv (4 * PI * d ^ 3)).
    rewrite (Rabs_pos_eq (4 * PI * d ^ 3)) by lra.
    field. split; lra.
  - ring.
  - replace (Q * (Q / (4 * PI * d ^ 3) * r0 * r0 + Q / (4 * PI * d ^ 3) * r1 * r1))
      with (Q * Q * (r0 * r0 + r1 * r1) / (4 * PI * d ^ 3))
      by (field; lra).
    apply Rmult_le_pos; [| left; apply Rinv_0_lt_compat; assumption].
    apply Rmult_le_pos; nra.
Qed.

(** X7: The wire with a current [I] gives a field perpendicular to the line
    from the wire to the point, and the charged wire with the line charge
    [q] a field along that line; both have the magnitude
    [|.| / (2 pi d)]. *)
Theorem wire_fields (xy : R * R) (x y I q : R) :
  xy <> (x, y) ->
  let r := vsub xy (x, y) in
  exists Fw Fc,
    F_wire xy x y I = Ok Fw /\
    F_charged_wire xy x y q = Ok Fc /\
    fst Fw * fst r + snd Fw * snd r = 0 /\
    vabs Fw = Rabs I / (2 * PI * vabs r) /\
    fst Fc * snd r - snd Fc * fst r = 0 /\
    vabs Fc = Rabs q / (2 * PI * vabs r).
Proof.
  destruct xy as [p0 p1]. intros Hne. cbv zeta.
  unfold F_wire, F_charged_wire, vsub, vabs, zeros2. cbn [fst snd]. exact_arith.
  set (r0 := p0 - x). set (r1 := p1 - y).
  assert (Hr : (r0, r1) <> (0, 0)).
  { intros E. injection E as E0 E1. apply Hne. unfold r0, r1 in *.
    f_equal; lra. }
  pose proof (hypot_pos r0 r1 Hr) as Hd. pose proof (hypot_sqr r0 r1) as Hs.
  pose proof PI_RGT_0 as Hpi.
  set (d := Exact.hypot r0 r1) in *.
  assert (Hrr : r0 * r0 + r1 * r1 <> 0) by nra.
  apply eqb_false in Hrr. rewrite Hrr. apply eqb_false in Hrr.
  do 2 eexists. split; [reflexivity |]. split; [reflexivity |].
  cbn [fst snd].
  assert (Hlen : forall s u v : R,
             u * u + v * v = r0 * r0 + r1 * r1 ->
             Exact.hypot (u * (s / (2 * PI * (r0 * r0 + r1 * r1))))
                         (v * (s / (2 * PI * (r0 * r0 + r1 * r1))))
             = Rabs s / (2 * PI * d)).
  { intros s u v Huv. apply hypot_unique.
    - apply Rmult_le_pos; [apply Rabs_pos |].
      left. apply Rinv_0_lt_compat. nra.
    - assert (Hs2 : Rabs s * Rabs s = s * s).
      { unfold Rabs. destruct (Rcase_abs s); ring. }
      rewrite <- Hs in *.
      replace (Rabs s / (2 * PI * d) * (Rabs s / (2 * PI * d)))
        with (Rabs s * Rabs s / (2 * PI * d * (2 * PI * d)))
        by (field; lra).
      rewrite Hs2. field_simplify_eq; [| lra].
      nra. }
  repeat split.
  - field. repeat split; nra.
  - replace (- r1 * (I / (2 * PI * (r0 * r0 + r1 * r1))))
      with ((- r1) * (I / (2 * PI * (r0 * r0 + r1 * r1)))) by ring.
    apply Hlen. ring.
  - field. repeat split; nra.
  - rewrite (Rmult_comm (q / (2 * PI * (r0 * r0 + r1 * r1))) r0),
            (Rmult_comm (q / (2 * PI * (r0 * r0 + r1 * r1))) r1).
    apply Hlen. ring.
Qed.

(** The field of a dipole away from it. *)
Lemma F_dipole_value (r0 r1 x y px py : R) :
  (r0, r1) <> (0, 0) ->
  let d := Exact.hypot r0 r1 in
  F_dipole (x + r0, y + r1) x y px py
  = Ok (dec 25 2 / (PI * d ^ 5) * (3 * (r0 * px + r1 * py) * r0 - d * d * px),
        dec 25 2 / (PI * d ^ 5) * (3 * (r0 * px + r1 * py) * r1 - d * d * py)).
Proof.
  intros Hr. apply hypot_pos in Hr. unfold F_dipole. cbn [fst snd]. exact_arith.
  replace (x + r0 - x) with r0 by ring. replace (y + r1 - y) with r1 by ring.
  cbv zeta. set (d := Exact.hypot r0 r1) in *.
  rewrite neqb_exact by lra. rewrite py_pow_exact, powi_pow. cbn [bind].
  exact_arith. pose proof PI_RGT_0.
  rewrite py_div_exact.
  - reflexivity.
  - apply Rgt_not_eq. apply Rmult_gt_0_compat; [lra | apply pow_lt; assumption].
Qed.

(** X8: Reflection through the source: the field of a monopole changes sign
    and the field of a dipole stays the same. *)
Theorem point_reflection (x y a b Q px py : R) :
  exists u w,
    F_monopole (x + a, y + b) x y Q = Ok u /\
    F_monopole (x - a, y - b) x y Q = Ok (vneg u) /\
    F_dipole (x + a, y + b) x y px py = Ok w /\
    F_dipole (x - a, y - b) x y px py = Ok w.
Proof.
  destruct (Req_dec_T a 0) as [Ha | Ha]; [destruct (Req_dec_T b 0) as [Hb | Hb] |].
  - subst. replace (x + 0) with x by ring. replace (y + 0) with y by ring.
    replace (x - 0) with x by ring. replace (y - 0) with y by ring.
    destruct (singular_point_values_exact x y Q px py) as [-> ->].
    exists (0, 0), (px, py). repeat split.
    unfold vneg. cbn [fst snd]. exact_arith. apply f_equal, f_equal2; ring.
  - assert (Hr : (a, b) <> (0, 0)) by (intros E; injection E as E0 E1; lra).
    assert (Hr' : (- a, - b) <> (0, 0)) by (intros E; injection E as E0 E1; lra).
    unfold Rminus.
    rewrite (F_monopole_value a b x y Q Hr), (F_monopole_value (- a) (- b) x y Q Hr').
    rewrite (F_dipole_value a b x y px py Hr), (F_dipole_value (- a) (- b) x y px py Hr').
    cbv zeta. rewrite !hypot_opp.
    do 2 eexists. repeat split.
    + unfold vneg. cbn [fst snd]. exact_arith. apply f_equal, f_equal2; ring.
    + apply f_equal, f_equal2; ring.
  - assert (Hr : (a, b) <> (0, 0)) by (intros E; injection E as E0 E1; lra).
    assert (Hr' : (- a, - b) <> (0, 0)) by (intros E; injection E as E0 E1; lra).
    unfold Rminus.
    rewrite (F_monopole_value a b x y Q Hr), (F_monopole_value (- a) (- b) x y Q Hr').
    rewrite (F_dipole_value a b x y px py Hr), (F_dipole_value (- a) (- b) x y px py Hr').
    cbv zeta. rewrite !hypot_opp.
    do 2 eexists. repeat split.
    + unfold vneg. cbn [fst snd]. exact_arith. apply f_equal, f_equal2; ring.
    + apply f_equal, f_equal2; ring.
Qed.

End PointSources.

(** The unit charge at the origin, seen from [(3, 4)]. *)
Lemma F_monopole_inverse_square_witness :
  let r := vsub (3, 4)%R (0, 0)%R in
  exists Fxy,
    F_monopole (3, 4)%R 0%R 0%R 1%R = Ok Fxy /\
    vabs Fxy = (Rabs 1 / (4 * PI * vabs r ^ 2))%R /\
    (fst Fxy * snd r - snd Fxy * fst r = 0)%R /\
    (0 <= 1 * (fst Fxy * fst r + snd Fxy * snd r))%R.
Proof.
  apply F_monopole_inverse_square.
  intros E. injection E as E0 E1. lra.
Defined.

(** A wire and a charged wire at the origin, seen from [(3, 4)]. *)
Lemma wire_fields_witness :
  let r := vsub (3, 4)%R (0, 0)%R in
  exists Fw Fc,
    F_wire (3, 4)%R 0%R 0%R 1%R = Ok Fw /\
    F_charged_wire (3, 4)%R 0%R 0%R 2%R = Ok Fc /\
    (fst Fw * fst r + snd Fw * snd r = 0)%R /\
    vabs Fw = (Rabs 1 / (2 * PI * vabs r))%R /\
    (fst Fc * snd r - snd Fc * fst r = 0)%R /\
    vabs Fc = (Rabs 2 / (2 * PI * vabs r))%R.
Proof.
  apply wire_fields.
  intros E. injection E as E0 E1. lra.
Defined.

(* ================================================================= *)
(** ** Fields from potentials *)

Section Potentials.

Import ExactFacts ExactVectors.
Local Open Scope R_scope.

Variable ext : @extended R.

(** X11: A field given by one custom element with a potential: [F] is the
    negative gradient, taken by central differences, which is exact for
    an affine potential [c - gx x - gy y]. *)
Theorem custom_potential_gradient (Vf : R * R -> result R) (c gx gy : R)
    (xy : R * R) :
  (forall q, Vf q = Ok (c - gx * fst q - gy * snd q)) ->
  F ext (mkField [custom_V Vf]) xy = (gx, gy).
Proof.
  intros HV.
  assert (HVq : forall q, V ext (mkField [custom_V Vf]) q
                          = 0 + (c - gx * fst q - gy * snd q)).
  { intros q. unfold V, V_step, V_term, custom_V.
    cbn [elements fold_left String.eqb Ascii.eqb Bool.eqb andb].
    unfold has_key, call_scal, some.
    cbn [lookup String.eqb Ascii.eqb Bool.eqb]. rewrite HV. reflexivity. }
  unfold F. cbn [elements fold_left]. unfold F_step.
  set (self := mkField [custom_V Vf]) in *.
  unfold F_term, custom_V. cbn [String.eqb Ascii.eqb Bool.eqb].
  unfold has_key. cbn [lookup String.eqb Ascii.eqb Bool.eqb].
  rewrite !HVq. destruct xy as [x y].
  unfold vadd, vsub, zeros2. cbn [fst snd]. exact_arith. rewrite dec_1_6.
  apply f_equal2; field.
Qed.

(** X9: The potential of a monopole never raises: the distance is floored at
    [1e-16], so the value is [Q / (4 pi d)] from that distance on and is
    bounded by [|Q| / (4 pi 1e-16)] everywhere. *)
Theorem V_monopole_floored (xy : R * R) (x y Q : R) :
  let d := vabs (vsub xy (x, y)) in
  exists v,
    V_monopole xy x y Q = Ok v /\
    Rabs v <= Rabs Q / (4 * PI * dec 1 16) /\
    (dec 1 16 <= d -> v = Q / (4 * PI * d)).
Proof.
  cbv zeta. unfold V_monopole, vabs, vsub. cbn [fst snd]. exact_arith.
  set (d := Exact.hypot (fst xy - x) (snd xy - y)).
  assert (Hfloor : @dec R exact 1 16 = 1 / 10000000000000000) by reflexivity.
  rewrite py_max_Rmax. pose proof PI_RGT_0 as Hpi.
  assert (Hm : dec 1 16 <= Rmax (dec 1 16) d) by apply Rmax_l.
  assert (Hpos : 0 < @dec R exact 1 16) by (rewrite Hfloor; lra).
  set (m := Rmax (dec 1 16) d) in *.
  rewrite py_div_exact by (apply Rgt_not_eq; apply Rmult_gt_0_compat; lra).
  eexists. split; [reflexivity |]. split.
  - unfold Rdiv. rewrite Rabs_mult.
    apply Rmult_le_compat_l; [apply Rabs_pos |].
    rewrite Rabs_inv, Rabs_pos_eq by (apply Rmult_le_pos; lra).
    apply Rinv_le_contravar; [apply Rmult_lt_0_compat; lra |].
    apply Rmult_le_compat_l; lra.
  - intros Hd. unfold m. rewrite Rmax_right by exact Hd. reflexivity.
Qed.

End Potentials.

(** The potential [- x - 2 y], seen from [(3, 4)]. *)
Lemma custom_potential_gradient_witness :
  F (num := R) no_extended
    (mkField [custom_V (fun q => Ok (0 - 1 * fst q - 2 * snd q)%R)]) (3, 4)%R
  = (1, 2)%R.
Proof.
  apply (custom_potential_gradient no_extended _ 0%R 1%R 2%R).
  intros q. reflexivity.
Defined.

(* ================================================================= *)
(** ** The potential of a concatenated field *)

Section PotentialSuperposition.

Local Open Scope R_scope.

Variable ext : @extended R.

Lemma V_steps_from (xy : R * R) (l : list element) :
  forall acc,
    fold_left (V_step ext xy) l acc = acc + fold_left (V_step ext xy) l 0.
Proof.
  induction l as [| el l IH]; intros acc; cbn [fold_left].
  - ring.
  - rewrite (IH (V_step ext xy acc el)), (IH (V_step ext xy 0 el)).
    unfold V_step. destruct (V_term ext el xy) as [[v |] | e];
      exact_arith; ring.
Qed.

(** X10: In exact arithmetic the potential of [A ++ B] is the sum of the two
    potentials, for all element lists. *)
Theorem potential_superposition (A B : list element) (xy : R * R) :
  V ext (mkField (A ++ B)) xy = V ext (mkField A) xy + V ext (mkField B) xy.
Proof.
  unfold V. cbn [elements]. rewrite fold_left_app. exact_arith.
  apply V_steps_from.
Qed.

End PotentialSuperposition.

(* ================================================================= *)
(** ** Elements that [F] and [V] pass over *)

Section SilentElements.

Context {num : Type} `{Arith num}.
Variable ext : @extended num.

(** [F] reads [self] only through the potential [self.V]. *)
Lemma F_term_through_V (self self' : Field) (el : element) (xy : vec) :
  (forall q, V ext self q = V ext self' q) ->
  F_term ext self el xy = F_term ext self' el xy.
Proof.
  intros HV. destruct el as [kind par]. unfold F_term.
  repeat match goal with
         | |- context [if String.eqb kind ?s then _ else _] =>
             destruct (String.eqb kind s); [reflexivity |]
         end.
  rewrite !HV. reflexivity.
Qed.

Lemma F_steps_through_V (self self' : Field) (xy : vec) (l : list element) :
  (forall q, V ext self q = V ext self' q) ->
  forall acc,
    fold_left (F_step ext self xy) l acc = fold_left (F_step ext self' xy) l acc.
Proof.
  intros HV. induction l as [| el l IH]; intros acc; [reflexivity |].
  cbn [fold_left]. unfold F_step at 2 4.
  rewrite (F_term_through_V self self' el xy HV). apply IH.
Qed.

(** An element that adds nothing to either accumulator can be left out of
    the list. *)
Lemma silent_element_skipped (el : element) :
  (forall self q acc, F_step ext self q acc el = acc) ->
  (forall q acc, V_step ext q acc el = acc) ->
  forall (A B : list element) (xy : vec),
    F ext (mkField (A ++ el :: B)) xy = F ext (mkField (A ++ B)) xy /\
    V ext (mkField (A ++ el :: B)) xy = V ext (mkField (A ++ B)) xy.
Proof.
  intros HF HV A B.
  assert (HVeq : forall q, V ext (mkField (A ++ el :: B)) q
                           = V ext (mkField (A ++ B)) q).
  { intros q. unfold V. cbn [elements]. rewrite !fold_left_app.
    cbn [fold_left]. rewrite HV. reflexivity. }
  intros xy. split; [| apply HVeq].
  unfold F. cbn [elements].
  rewrite (F_steps_through_V _ (mkField (A ++ B)) xy _ HVeq).
  rewrite !fold_left_app. cbn [fold_left]. rewrite HF. reflexivity.
Qed.

(** X12: An element whose kind neither [F] nor [V] knows (they print a warning
    for it) changes neither the field nor the potential. *)
Theorem unknown_kind_ignored (kind : string) (par : params)
    (A B : list element) (xy : vec) :
  existsb (String.eqb kind) known_kinds = false ->
  F ext (mkField (A ++ (kind, par) :: B)) xy = F ext (mkField (A ++ B)) xy /\
  V ext (mkField (A ++ (kind, par) :: B)) xy = V ext (mkField (A ++ B)) xy.
Proof.
  intros Hk. split_kinds Hk.
  apply silent_element_skipped.
  - intros self q acc. unfold F_step, F_term.
    repeat match goal with
           | E : String.eqb kind ?s = false |- _ => rewrite E; clear E
           end.
    reflexivity.
  - intros q acc. unfold V_step, V_term.
    repeat match goal with
           | E : String.eqb kind ?s = false |- _ => rewrite E; clear E
           end.
    reflexivity.
Qed.

(** X13: An element of a kind with a position whose parameters lack ['x'] or
    ['y']: its evaluation raises [KeyError], which [F] and [V] catch, and
    the element changes neither the field nor the potential. *)
Theorem missing_position_skipped (kind : string) (par : params)
    (A B : list element) (xy : vec) :
  In kind positioned_kinds ->
  has_key par "x" && has_key par "y" = false ->
  F ext (mkField (A ++ (kind, par) :: B)) xy = F ext (mkField (A ++ B)) xy /\
  V ext (mkField (A ++ (kind, par) :: B)) xy = V ext (mkField (A ++ B)) xy.
Proof.
  intros Hk Hpar. unfold has_key in Hpar.
  cbn [In positioned_kinds] in Hk.
  apply silent_element_skipped.
  - intros self q acc. unfold F_step.
    repeat (destruct Hk as [<- | Hk]); [.. | contradiction];
      cbn [F_term String.eqb Ascii.eqb Bool.eqb];
      unfold call6, call5, call4, call3, call2, some, getnum;
      destruct (lookup par "x") as [[] |]; try reflexivity;
      destruct (lookup par "y") as [[] |]; try reflexivity;
      discriminate Hpar.
  - intros q acc. unfold V_step.
    repeat (destruct Hk as [<- | Hk]); [.. | contradiction];
      cbn [V_term String.eqb Ascii.eqb Bool.eqb andb];
      unfold call6, call5, call4, call3, call2, some, getnum;
      destruct (lookup par "x") as [[] |]; try reflexivity;
      destruct (lookup par "y") as [[] |]; try reflexivity;
      discriminate Hpar.
Qed.

End SilentElements.

(** A "magnet" between two elements, and a monopole without position. *)
Lemma unknown_kind_ignored_witness :
  let A : list (@element float) := [homogeneous 1 0]%float in
  let B : list (@element float) := [monopole 0 0 1]%float in
  F no_extended (mkField (A ++ ("magnet"%string, []) :: B)) (3, 4)%float
  = F no_extended (mkField (A ++ B)) (3, 4)%float /\
  V no_extended (mkField (A ++ ("magnet"%string, []) :: B)) (3, 4)%float
  = V no_extended (mkField (A ++ B)) (3, 4)%float.
Proof.
  apply (unknown_kind_ignored no_extended). reflexivity.
Defined.

Lemma missing_position_skipped_witness :
  let A : list (@element float) := [homogeneous 1 0]%float in
  let B : list (@element float) := [monopole 0 0 1]%float in
  let bad : @element float := ("monopole"%string, [("Q"%string, VNum 1%float)]) in
  F no_extended (mkField (A ++ bad :: B)) (3, 4)%float
  = F no_extended (mkField (A ++ B)) (3, 4)%float /\
  V no_extended (mkField (A ++ bad :: B)) (3, 4)%float
  = V no_extended (mkField (A ++ B)) (3, 4)%float.
Proof.
  apply (missing_position_skipped no_extended).
  - left. reflexivity.
  - reflexivity.
Defined.

(* ================================================================= *)
(** ** Conversion of the old-style dict *)

Section Conversion.

Context {num : Type} `{Arith num}.

(** Reading the components [i], [i + 1], ... of an entry. *)
Lemma items_ok (l : @oldentry num) (keys : list string) :
  forall i : nat,
    keys <> [] ->
    ((exists par, items l keys (Z.of_nat i) = Ok par) <->
     (exists xs, l = OTuple xs /\ (i + List.length keys <= List.length xs)%nat)).
Proof.
  induction keys as [| k rest IH]; intros i Hne; [contradiction |].
  cbn [items]. destruct l as [xs | f].
  - cbn [item]. destruct (nth_error xs i) as [x |] eqn:Ex.
    + rewrite (py_index_nth xs i x Ex). cbn [bind].
      assert (Hi : (i < List.length xs)%nat) by (apply nth_error_Some; congruence).
      destruct rest as [| k' rest'].
      * cbn [items bind List.length]. split.
        -- intros _. exists xs. split; [reflexivity | lia].
        -- intros _. eauto.
      * specialize (IH (S i)). replace (Z.of_nat i + 1)%Z with (Z.of_nat (S i)) by lia.
        destruct IH as [IH1 IH2]; [discriminate |]. split.
        -- intros [par Hpar].
           destruct (items (OTuple xs) (k' :: rest') (Z.of_nat (S i))) as [par' |] eqn:E;
             [| discriminate].
           destruct IH1 as (xs' & Hxs & Hlen); [eauto |].
           injection Hxs as <-. exists xs. split; [reflexivity |].
           cbn [List.length] in *. lia.
        -- intros (xs' & Hxs & Hlen). injection Hxs as <-.
           destruct IH2 as [par' Hpar'].
           { exists xs. split; [reflexivity |]. cbn [List.length] in *. lia. }
           rewrite Hpar'. cbn [bind]. eauto.
    + assert (Hi : (List.length xs <= i)%nat) by (apply nth_error_None; exact Ex).
      assert (Hraise : py_index xs (Z.of_nat i) = Raise IndexError).
      { unfold py_index.
        replace (Z.of_nat i <? 0)%Z with false by (symmetry; apply Z.ltb_ge; lia).
        replace (Z.of_nat (List.length xs) <=? Z.of_nat i)%Z with true
          by (symmetry; apply Z.leb_le; lia).
        rewrite orb_true_r. reflexivity. }
      rewrite Hraise. cbn [bind]. split.
      * intros [par Hpar]. discriminate.
      * intros (xs' & Hxs & Hlen). injection Hxs as <-.
        cbn [List.length] in Hlen. lia.
  - cbn [item bind]. split.
    + intros [par Hpar]. discriminate.
    + intros (xs & Hxs & _). discriminate.
Qed.

Lemma convert_entry_ok (t : string) (l : @oldentry num) :
  (exists el, convert_entry t l = Ok el) <-> fits t l = true.
Proof.
  assert (Hitems : forall (keys : list string) (k : @params num -> result (option (@element num))),
             keys <> [] ->
             (forall par, exists el, k par = Ok el) ->
             ((exists el, (par <- items l keys 0%Z ;; k par) = Ok el) <->
              match l with
              | OTuple xs => (List.length keys <=? List.length xs)%nat
              | OFun _ => false
              end = true)).
  { intros keys k Hne Hk.
    pose proof (items_ok l keys 0 Hne) as [I1 I2]. cbn [Z.of_nat] in *. split.
    - intros [el Hel].
      destruct (items l keys 0%Z) as [par |] eqn:E; [| discriminate].
      destruct I1 as (xs & -> & Hlen); [eauto |]. apply Nat.leb_le. lia.
    - intros Hfit. destruct l as [xs | f]; [| discriminate].
      apply Nat.leb_le in Hfit.
      destruct I2 as [par Hpar]; [exists xs; split; [reflexivity | lia] |].
      rewrite Hpar. cbn [bind]. apply Hk. }
  unfold convert_entry, fits, tuple_arity.
  repeat match goal with
         | |- context [if String.eqb t ?s then _ else _] =>
             destruct (String.eqb t s);
             [apply Hitems; [discriminate | intros par; eauto] |]
         end.
  destruct (String.eqb t "custom"); split; eauto.
Qed.

Lemma convert_list_ok (t : string) (it : list (@oldentry num)) :
  (exists els, convert_list t it = Ok els) <-> forallb (fits t) it = true.
Proof.
  induction it as [| l rest [IH1 IH2]]; cbn [convert_list forallb].
  - split; eauto.
  - pose proof (convert_entry_ok t l) as [E1 E2]. split.
    + intros [els Hels].
      destruct (convert_entry t l) as [el |]; [| discriminate]. cbn [bind] in Hels.
      destruct (convert_list t rest) as [els' |]; [| discriminate].
      rewrite E1, IH1 by eauto. reflexivity.
    + intros Hfit. apply andb_prop in Hfit. destruct Hfit as [Hl Hrest].
      destruct (E2 Hl) as [el ->]. destruct (IH2 Hrest) as [els' ->].
      cbn [bind]. eauto.
Qed.

(** X14: The conversion of the old-style dict succeeds exactly when every
    entry under a converted key is a tuple with as many components as
    that kind reads; else it raises ([IndexError] for a short tuple).
    Entries under other keys are dropped. *)
Theorem convert_oldstyle_dict_ok (dct : list (string * list (@oldentry num))) :
  (exists els, convert_oldstyle_dict dct = Ok els) <->
  forallb (fun entry => forallb (fits (fst entry)) (snd entry)) dct = true.
Proof.
  induction dct as [| [t it] rest [IH1 IH2]]; cbn [convert_oldstyle_dict forallb fst snd].
  - split; eauto.
  - pose proof (convert_list_ok t it) as [E1 E2]. split.
    + intros [els Hels].
      destruct (convert_list t it) as [a |]; [| discriminate]. cbn [bind] in Hels.
      destruct (convert_oldstyle_dict rest) as [b |]; [| discriminate].
      rewrite E1, IH1 by eauto. reflexivity.
    + intros Hfit. apply andb_prop in Hfit. destruct Hfit as [Hl Hrest].
      destruct (E2 Hl) as [a ->]. destruct (IH2 Hrest) as [b ->].
      cbn [bind]. eauto.
Qed.

End Conversion.

(* ================================================================= *)
(** ** The Runge-Kutta step *)

Section RungeKutta.

Import ExactFacts ExactVectors.
Local Open Scope R_scope.

(** X15: In a constant direction field the step is exact: it moves by [h]
    times the direction, and the error estimate is zero. *)
Theorem rkstep_constant_field (p v : R * R) (f : R * R -> result (R * R)) (h : R) :
  (forall q, f q = Ok v) ->
  _rkstep p v f h = Ok (vadd p (vscale h v), 0).
Proof.
  intros Hf. unfold _rkstep. repeat (rewrite Hf; cbn [bind]).
  destruct p as [p0 p1], v as [v0 v1].
  unfold vadd, vsub, vscale, vdivs, vabs. cbn [fst snd]. exact_arith.
  rewrite !Rminus_diag, hypot_zero, !py_max_Rmax.
  assert (M : Rmax 0 0 = 0) by (apply Rmax_left; lra). rewrite !M.
  apply f_equal, f_equal2; [apply f_equal2; field | reflexivity].
Qed.

(** X16: In the linear field [f(q) = lambda q] the step multiplies the point
    by the Taylor polynomial of degree 4 of the exponential at
    [z = h lambda]: the method has order 4. *)
Theorem rkstep_linear_field (p : R * R) (f : R * R -> result (R * R))
    (lambda h : R) :
  (forall q, f q = Ok (vscale lambda q)) ->
  let z := h * lambda in
  exists verr,
    _rkstep p (vscale lambda p) f h
    = Ok (vscale (1 + z + z ^ 2 / 2 + z ^ 3 / 6 + z ^ 4 / 24) p, verr).
Proof.
  intros Hf z. unfold _rkstep. repeat (rewrite Hf; cbn [bind]).
  eexists. apply f_equal, f_equal2; [| reflexivity].
  destruct p as [p0 p1]. unfold z.
  unfold vadd, vsub, vscale, vdivs. cbn [fst snd]. exact_arith.
  apply f_equal2; field.
Qed.

End RungeKutta.

(** The field that points along the x axis, and the field [q |-> 2 q]. *)
Lemma rkstep_constant_field_witness :
  _rkstep (1, 2)%R (1, 0)%R (fun _ => Ok (1, 0)%R) (/ 2)%R
  = Ok (vadd (1, 2)%R (vscale (/ 2)%R (1, 0)%R), 0%R).
Proof.
  apply rkstep_constant_field. intros q. reflexivity.
Defined.

Lemma rkstep_linear_field_witness :
  let z := (/ 2 * 2)%R in
  exists verr,
    _rkstep (1, 2)%R (vscale 2%R (1, 2)%R) (fun q => Ok (vscale 2%R q)) (/ 2)%R
    = Ok (vscale (1 + z + z ^ 2 / 2 + z ^ 3 / 6 + z ^ 4 / 24)%R (1, 2)%R, verr).
Proof.
  apply (rkstep_linear_field (1, 2)%R (fun q => Ok (vscale 2%R q)) 2%R (/ 2)%R).
  intros q. reflexivity.
Defined.

(* ================================================================= *)
(** ** The nearest pole *)

Section NearestPoleRaises.

Context {num : Type} `{Arith num}.

Lemma nearest_scan_raises (p : vec) (v : option vec) (el : element)
    (els : list element) :
  In el els ->
  (forall st, exists e, nearest_step p v st el = Raise e) ->
  forall st, exists e, nearest_scan p v st els = Raise e.
Proof.
  intros Hin Hel. induction els as [| el' rest IH]; [contradiction |].
  intros st. cbn [nearest_scan].
  destruct (nearest_step p v st el') as [st' | e] eqn:E.
  - cbn [bind]. destruct Hin as [-> | Hin].
    + destruct (Hel st) as [e He]. congruence.
    + apply IH, Hin.
  - cbn [bind]. eauto.
Qed.

(** X18: The pole search does not guard its lookups: when a monopole or a
    dipole of the field lacks the key ['x'], the search raises (while [F]
    skips such an element). *)
Theorem nearest_pole_missing_key (field : Field) (first_point p : vec)
    (v : option vec) (kind : string) (par : params) :
  In (kind, par) (elements field) ->
  is_pole kind = true ->
  has_key par "x" = false ->
  exists e, _get_nearest_pole field first_point p v = Raise e.
Proof.
  intros Hin Hk Hx. unfold _get_nearest_pole.
  destruct (nearest_scan_raises p v (kind, par) (elements field) Hin) with
    (st := mkNearest (weighted v (vabs (vsub first_point p)) (vsub first_point p))
                     first_point None "start") as [e He].
  - intros st. unfold nearest_step. unfold is_pole in Hk. rewrite Hk. cbn [negb].
    unfold has_key, getnum in *. destruct (lookup par "x"); [discriminate |].
    cbn [bind]. eauto.
  - rewrite He. cbn [bind]. eauto.
Qed.

End NearestPoleRaises.

(** A field with a monopole that has only its charge. *)
Lemma nearest_pole_missing_key_witness :
  exists e,
    _get_nearest_pole
      (mkField [homogeneous 1 0; ("monopole"%string, [("Q"%string, VNum 1)])]%float)
      (0, 0)%float (1, 1)%float None = Raise e.
Proof.
  apply (nearest_pole_missing_key _ _ _ _ "monopole"%string
           [("Q"%string, VNum 1%float)]).
  - right. left. reflexivity.
  - reflexivity.
  - reflexivity.
Defined.

Section NearestPole.

Import ExactFacts.
Local Open Scope R_scope.

Variable p : R * R.
Variable v : option (R * R).

(** What one pass of the loop does. *)
Lemma nearest_step_cases (st st' : nearest) (kind : string) (par : params) :
  nearest_step p v st (kind, par) = Ok st' ->
  (is_pole kind = false /\ st' = st) \/
  (is_pole kind = true /\
   exists x y pxy,
     getnum par "x" = Ok x /\ getnum par "y" = Ok y /\
     ((pole_distance p v (x, y) < d_near st /\
       st' = mkNearest (pole_distance p v (x, y)) (x, y) pxy kind) \/
      (d_near st <= pole_distance p v (x, y) /\ st' = st))).
Proof.
  unfold nearest_step. fold (is_pole kind).
  destruct (is_pole kind); cbn [negb].
  - intros E. right. split; [reflexivity |].
    destruct (getnum par "x") as [x |]; [| discriminate]. cbn [bind] in E.
    destruct (getnum par "y") as [y |]; [| discriminate]. cbn [bind] in E.
    match type of E with
    | bind ?c _ = _ => destruct c as [pxy |]; [| discriminate]
    end.
    cbn [bind] in E. fold (pole_distance p v (x, y)) in E.
    exists x, y, pxy. split; [reflexivity |]. split; [reflexivity |].
    cbn [nltb exact] in E.
    destruct (Exact.ltb (pole_distance p v (x, y)) (d_near st)) eqn:L.
    + apply ltb_true in L. left. split; [assumption | congruence].
    + apply ltb_false in L. right. split; [assumption | congruence].
  - intros E. left. split; [reflexivity | congruence].
Qed.

(** The state after the loop: the distance has not grown, it is at most
    the distance of every pole passed, and the state is the one the loop
    was entered with or describes one of the poles. *)
Lemma nearest_scan_minimal (els : list element) :
  forall st st',
    nearest_scan p v st els = Ok st' ->
    d_near st' <= d_near st /\
    (forall kind par x y,
        In (kind, par) els -> is_pole kind = true ->
        getnum par "x" = Ok x -> getnum par "y" = Ok y ->
        d_near st' <= pole_distance p v (x, y)) /\
    (st' = st \/
     exists par x y pxy,
       In (type_near st', par) els /\ is_pole (type_near st') = true /\
       getnum par "x" = Ok x /\ getnum par "y" = Ok y /\
       st' = mkNearest (pole_distance p v (x, y)) (x, y) pxy (type_near st')).
Proof.
  induction els as [| [kind par] rest IH]; intros st st' E; cbn [nearest_scan] in E.
  - injection E as <-. split; [lra |]. split; [intros ? ? ? ? [] | left; reflexivity].
  - destruct (nearest_step p v st (kind, par)) as [st1 |] eqn:E1; [| discriminate].
    cbn [bind] in E. destruct (IH st1 st' E) as (Hle & Hall & Hwho).
    apply nearest_step_cases in E1.
    assert (Hst1 : d_near st1 <= d_near st).
    { destruct E1 as [[_ ->] | (_ & x & y & pxy & _ & _ & [[Hlt ->] | [_ ->]])];
        cbn [d_near]; lra. }
    split; [lra |]. split.
    + intros kind' par' x' y' [Heq | Hin] Hk Hx Hy.
      * injection Heq as <- <-.
        destruct E1 as [[Hn _] | (_ & x & y & pxy & Hx1 & Hy1 & Hcmp)];
          [congruence |].
        rewrite Hx in Hx1. rewrite Hy in Hy1.
        injection Hx1 as <-. injection Hy1 as <-.
        destruct Hcmp as [[Hlt ->] | [Hge ->]]; cbn [d_near] in *; lra.
      * apply (Hall kind' par' x' y' Hin Hk Hx Hy).
    + destruct Hwho as [-> | (par' & x' & y' & pxy' & Hin & Hk & Hx & Hy & Hst)].
      * destruct E1 as [[_ ->] | (Hk & x & y & pxy & Hx & Hy & [[Hlt ->] | [_ ->]])];
          [left; reflexivity | | left; reflexivity].
        right. exists par, x, y, pxy. cbn [type_near].
        repeat split; try assumption. left. reflexivity.
      * right. exists par', x', y', pxy'.
        repeat split; try assumption. right. assumption.
Qed.

(** X17: The pole [_get_nearest_pole] returns is a nearest one: its (weighted)
    distance from [p] is at most that of the start point and of every
    monopole and dipole of the field, and it is the start point or one of
    these poles. *)
Theorem nearest_pole_is_nearest (field : Field) (first_point : R * R)
    (np : Pole) :
  _get_nearest_pole field first_point p v = Ok np ->
  pole_distance p v (pole_xy np) <= pole_distance p v first_point /\
  (forall kind par x y,
      In (kind, par) (elements field) -> is_pole kind = true ->
      getnum par "x" = Ok x -> getnum par "y" = Ok y ->
      pole_distance p v (pole_xy np) <= pole_distance p v (x, y)) /\
  ((pole_type np = "start"%string /\ pole_xy np = first_point) \/
   exists par x y,
     In (pole_type np, par) (elements field) /\ is_pole (pole_type np) = true /\
     getnum par "x" = Ok x /\ getnum par "y" = Ok y /\ pole_xy np = (x, y)).
Proof.
  unfold _get_nearest_pole.
  set (start := mkNearest _ first_point None "start").
  destruct (nearest_scan p v start (elements field)) as [st |] eqn:E;
    [| discriminate].
  cbn [bind]. intros Hnp. injection Hnp as <-. cbn [pole_xy pole_type].
  destruct (nearest_scan_minimal _ _ _ E) as (Hle & Hall & Hwho).
  assert (Hd : d_near st = pole_distance p v (xy_near st)).
  { destruct Hwho as [-> | (par & x & y & pxy & _ & _ & _ & _ & ->)];
      reflexivity. }
  rewrite <- Hd. split; [exact Hle |]. split; [exact Hall |].
  destruct Hwho as [-> | (par & x & y & pxy & Hin & Hk & Hx & Hy & Hst)].
  - left. split; reflexivity.
  - right. exists par, x, y. repeat split; try assumption.
    rewrite Hst. reflexivity.
Qed.

End NearestPole.

(** Two monopoles and the start point [(5, 0)], seen from the origin. *)
Lemma nearest_pole_is_nearest_witness :
  let field : @Field R := mkField [monopole 3 0 1; monopole 1 0 1]%R in
  exists np,
    _get_nearest_pole field (5, 0)%R (0, 0)%R None = Ok np /\
    (pole_distance (0, 0)%R None (pole_xy np)
     <= pole_distance (0, 0)%R None (5, 0)%R)%R.
Proof.
  cbv zeta.
  destruct (_get_nearest_pole (mkField [monopole 3 0 1; monopole 1 0 1]%R)
              (5, 0)%R (0, 0)%R None) as [np | e] eqn:E.
  - exists np. split; [reflexivity |].
    apply (nearest_pole_is_nearest (0, 0)%R None _ (5, 0)%R np E).
  - exfalso. revert E.
    unfold _get_nearest_pole, monopole. cbn [elements nearest_scan].
    unfold nearest_step. cbn [String.eqb Ascii.eqb Bool.eqb orb negb].
    unfold getnum. cbn [lookup String.eqb Ascii.eqb Bool.eqb bind].
    repeat match goal with
           | |- context [if ?c then _ else _] => destruct c; cbn [bind]
           end; discriminate.
Defined.

(* ================================================================= *)
(** ** Joining the two parts of a line *)

Section JoinParts.

Context {num : Type} `{Arith num}.







Variable _create_nodes_part : @vec num -> num -> result (list (@Node num)).


End JoinParts.


(* ================================================================= *)
(** ** Interpolation along the nodes *)

Section Interpolation.

Import ExactFacts.
Local Open Scope R_scope.

Variable interp1d : list R -> list Z -> R -> result R.

(** The closing adjustment of [list_interpolate]. *)
Lemma adjust_bounds (N i idx : Z) (f frac : R) :
  (2 <= N)%Z -> (0 <= i <= N - 1)%Z -> 0 <= f <= 1 ->
  (i = (N - 1)%Z -> f = 0) ->
  (if ((0 <? i)%Z && (N - 1 <=? i)%Z)%bool
   then Ok ((N - 2)%Z, f + IZR i - IZR (N - 2))
   else Ok (i, f)) = Ok (idx, frac) ->
  (0 <= idx <= N - 2)%Z /\ 0 <= frac <= 1.
Proof.
  intros HN Hi Hf Hlast.
  destruct (0 <? i)%Z eqn:E0; destruct (N - 1 <=? i)%Z eqn:E1; cbn [andb];
    intros E; injection E as <- <-.
  - apply Z.leb_le in E1. assert (Hi' : i = (N - 1)%Z) by lia.
    rewrite (Hlast Hi'). subst i.
    replace (0 + IZR (N - 1) - IZR (N - 2)) with (IZR (N - 1 - (N - 2)))
      by (rewrite (minus_IZR (N - 1) (N - 2)); ring).
    replace (N - 1 - (N - 2))%Z with 1%Z by lia. split; [lia | lra].
  - apply Z.leb_gt in E1. split; [lia | assumption].
  - apply Z.ltb_ge in E0. split; [lia | assumption].
  - apply Z.ltb_ge in E0. split; [lia | assumption].
Qed.

(** X20: [list_interpolate] returns an index that has a successor in the list
    and a fraction between 0 and 1, when the list has two entries or more
    and the interpolant stays in the range [0 .. len(l) - 1] of its values. *)
Theorem list_interpolate_bounds (l : list R) (t : R) (idx : Z) (frac : R) :
  (2 <= List.length l)%nat ->
  (forall n, interp1d l (range_len l) t = Ok n -> 0 <= n <= IZR (len l - 1)) ->
  list_interpolate interp1d l t = Ok (idx, frac) ->
  (0 <= idx <= len l - 2)%Z /\ 0 <= frac <= 1.
Proof.
  intros Hlen Hrange. unfold list_interpolate. fold (range_len l).
  destruct l as [| a l']; [cbn in Hlen; lia |].
  rewrite py_index_first, py_index_last. cbn [bind].
  set (N := len (a :: l')) in *.
  assert (HN : (2 <= N)%Z) by (unfold N, len; lia).
  exact_arith.
  destruct (Exact.ltb t a).
  - cbn [bind]. apply adjust_bounds; try lia; try lra.
  - destruct (Exact.ltb (last (a :: l') a) t).
    + cbn [bind]. apply adjust_bounds; try lia; try lra.
    + destruct (interp1d (a :: l') (range_len (a :: l')) t) as [n |] eqn:En;
        [| discriminate].
      cbn [bind]. destruct (Hrange n eq_refl) as [Hn0 Hn1].
      destruct (base_Int_part n) as [Hlo Hhi].
      assert (Hidx : (0 <= Int_part n <= N - 1)%Z).
      { split.
        - assert (Hgt : IZR (-1) < IZR (Int_part n)) by lra.
          apply lt_IZR in Hgt. lia.
        - apply le_IZR. lra. }
      apply adjust_bounds; try lia; try lra.
      intros Hi. rewrite Hi in *. lra.
Qed.

Lemma rem_small (t : R) : 0 <= t < 1 -> Exact.rem t 1 = t.
Proof.
  intros Ht. unfold Exact.rem.
  replace (Int_part (t / 1)) with 0%Z; [ring |].
  apply Int_part_spec. simpl. lra.
Qed.

Lemma Int_part_IZR (z : Z) : Int_part (IZR z) = z.
Proof. symmetry. apply Int_part_spec. lra. Qed.

Lemma all_t_length (nodes : list (@Node R)) :
  forall ts, all_t nodes = Ok ts -> List.length ts = List.length nodes.
Proof.
  induction nodes as [| n nodes IH]; intros ts E; cbn [all_t] in E.
  - injection E as <-. reflexivity.
  - destruct (get_t n) as [t0 |]; [| discriminate]. cbn [bind] in E.
    destruct (all_t nodes) as [ts' |]; [| discriminate]. cbn [bind] in E.
    injection E as <-. cbn [List.length]. rewrite (IH ts' eq_refl). reflexivity.
Qed.

(** The Hermite segment starts at [p0] and ends at [p1]. *)
Lemma hermite_ends (p0 p1 v0 v1 : R * R) (p : R) :
  let q := 1 - p in
  let xy := vadd (vadd (vscale q p0) (vscale p p1))
                 (vscale (p * q)
                    (vadd (vscale (p - q) (vsub p1 p0))
                          (vsub (vscale q v0) (vscale p v1)))) in
  (p = 0 -> xy = p0) /\ (p = 1 -> xy = p1).
Proof.
  destruct p0, p1, v0, v1. unfold vadd, vsub, vscale. cbn [fst snd]. exact_arith.
  split; intros ->; apply f_equal2; ring.
Qed.

(** X21: The dense output passes through the nodes: where the parameter [t]
    lies in the range of the nodes' parameters and the interpolant
    returns the whole number [i], [get_position(t)] is the position of
    node [i]. *)
Theorem get_position_at_node (nodes : list Node) (ts : list R) (t : R)
    (i : nat) (n : Node) :
  (2 <= List.length nodes)%nat ->
  all_t nodes = Ok ts ->
  tangents_set nodes ->
  0 <= t <= 1 ->
  hd 0 ts <= t <= last ts 0 ->
  interp1d ts (range_len ts) t = Ok (IZR (Z.of_nat i)) ->
  nth_error nodes i = Some n ->
  get_position interp1d nodes t = Ok (node_p n).
Proof.
  intros Hlen Hts Htan Ht Hrange Hint Hn.
  pose proof (all_t_length nodes ts Hts) as Hlts.
  assert (Hi : (i < List.length nodes)%nat) by (apply nth_error_Some; congruence).
  unfold get_position.
  replace (len nodes =? 1)%Z with false
    by (symmetry; apply Z.eqb_neq; unfold len; lia).
  replace (len nodes <=? 0)%Z with false
    by (symmetry; apply Z.leb_gt; unfold len; lia).
  assert (Ht' : (if negb (neqb t (lit 1)) then nmod t (lit 1) else t) = t).
  { exact_arith. destruct (Exact.eqb t 1) eqn:E; cbn [negb]; [reflexivity |].
    apply eqb_false in E. apply rem_small. lra. }
  rewrite Ht', Hts. cbn [bind].
  unfold list_interpolate. fold (range_len ts).
  destruct ts as [| a ts']; [cbn in Hlts; lia |].
  rewrite py_index_first, py_index_last. cbn [bind]. exact_arith.
  cbn [hd] in Hrange.
  replace (Exact.ltb t a) with false by (symmetry; apply ltb_false; lra).
  replace (Exact.ltb (last (a :: ts') a) t) with false.
  2:{ symmetry. apply ltb_false.
      rewrite (last_default a ts' a 0). lra. }
  rewrite Hint. cbn [bind]. rewrite Int_part_IZR.
  set (N := len (a :: ts')).
  assert (HN : N = Z.of_nat (List.length nodes)) by (unfold N, len; lia).
  destruct ((0 <? Z.of_nat i)%Z && (N - 1 <=? Z.of_nat i)%Z)%bool eqn:Etest.
  - (* the last node *)
    apply andb_prop in Etest. destruct Etest as [E0 E1].
    apply Z.ltb_lt in E0. apply Z.leb_le in E1.
    assert (Hil : i = S (List.length nodes - 2)) by lia.
    destruct (nth_error nodes (List.length nodes - 2)) as [n0 |] eqn:En0.
    2:{ apply nth_error_None in En0. lia. }
    rewrite Hil in Hn.
    destruct (Htan _ _ _ En0 Hn) as [Hout Hin].
    replace (N - 2)%Z with (Z.of_nat (List.length nodes - 2)) by lia.
    cbn [bind].
    rewrite (py_index_nth nodes _ n0 En0).
    replace (Z.of_nat (List.length nodes - 2) + 1)%Z
      with (Z.of_nat (S (List.length nodes - 2))) by lia.
    rewrite (py_index_nth nodes _ n Hn). cbn [bind].
    destruct (node_v_out n0) as [v0 |]; [| contradiction].
    destruct (node_v_in n) as [v1 |]; [| contradiction].
    cbn [operand bind]. apply f_equal.
    apply (hermite_ends (node_p n0) (node_p n) v0 v1).
    rewrite Hil.
    replace (IZR (Z.of_nat (S (List.length nodes - 2)))
             - IZR (Z.of_nat (S (List.length nodes - 2)))
             + IZR (Z.of_nat (S (List.length nodes - 2)))
             - IZR (Z.of_nat (List.length nodes - 2)))
      with (IZR (Z.of_nat (S (List.length nodes - 2))
                 - Z.of_nat (List.length nodes - 2)))
      by (rewrite minus_IZR; ring).
    f_equal. lia.
  - (* a node with a successor *)
    assert (Hsucc : (S i < List.length nodes)%nat).
    { apply andb_false_iff in Etest. destruct Etest as [E | E].
      - apply Z.ltb_ge in E. lia.
      - apply Z.leb_gt in E. lia. }
    destruct (nth_error nodes (S i)) as [n1 |] eqn:En1.
    2:{ apply nth_error_None in En1. lia. }
    destruct (Htan _ _ _ Hn En1) as [Hout Hin].
    cbn [bind]. rewrite (py_index_nth nodes _ n Hn).
    replace (Z.of_nat i + 1)%Z with (Z.of_nat (S i)) by lia.
    rewrite (py_index_nth nodes _ n1 En1). cbn [bind].
    destruct (node_v_out n) as [v0 |]; [| contradiction].
    destruct (node_v_in n1) as [v1 |]; [| contradiction].
    cbn [operand bind]. apply f_equal.
    apply (hermite_ends (node_p n) (node_p n1) v0 v1).
    ring.
Qed.

End Interpolation.

(** The knots [0, 1] with the identity as interpolant, at [t = 1/2]. *)
Lemma list_interpolate_bounds_witness :
  list_interpolate (fun _ _ t => Ok t) [0; 1]%R (/ 2)%R
  = Ok (0%Z, (/ 2 - 0)%R) /\
  (0 <= 0 <= len [0; 1]%R - 2)%Z /\ (0 <= / 2 - 0 <= 1)%R.
Proof.
  assert (E : list_interpolate (fun _ _ t => Ok t) [0; 1]%R (/ 2)%R
              = Ok (0%Z, (/ 2 - 0)%R)).
  { unfold list_interpolate. rewrite py_index_first, py_index_last.
    cbn [bind last]. exact_arith.
    replace (Exact.ltb (/ 2) 0) with false
      by (symmetry; apply ExactFacts.ltb_false; lra).
    replace (Exact.ltb 1 (/ 2)) with false
      by (symmetry; apply ExactFacts.ltb_false; lra).
    cbn [bind].
    replace (Int_part (/ 2)) with 0%Z
      by (apply Int_part_spec; simpl; lra).
    reflexivity. }
  split; [exact E |].
  apply (list_interpolate_bounds (fun _ _ t => Ok t) [0; 1]%R (/ 2)%R 0%Z
           (/ 2 - 0)%R).
  - simpl. lia.
  - intros n En. injection En as <-. simpl. lra.
  - exact E.
Defined.

(** Two nodes on the x axis, at the parameter [1] of the second. *)
Lemma get_position_at_node_witness :
  let n0 : @Node R := mkNode (0, 0)%R None (Some (1, 0)%R) (Some false) (Some 0%R) in
  let n1 : @Node R := mkNode (1, 0)%R (Some (1, 0)%R) None (Some false) (Some 1%R) in
  get_position (fun _ _ t => Ok t) [n0; n1] 1%R = Ok (node_p n1).
Proof.
  intros n0 n1.
  apply (get_position_at_node (fun _ _ t => Ok t) [n0; n1] [0; 1]%R 1%R 1%nat n1).
  - simpl. lia.
  - reflexivity.
  - intros [| [| k]] m0 m1 E0 E1; cbn in E0, E1; try discriminate.
    injection E0 as <-. injection E1 as <-. split; discriminate.
  - lra.
  - simpl. lra.
  - reflexivity.
  - reflexivity.
Defined.

(* ================================================================= *)
(** ** The bending of a piece of a line *)

Section Bending.

Import ExactFacts ExactVectors.
Local Open Scope R_scope.

Variable interp1d : list R -> list Z -> R -> result R.

(** X22: The bending [_bending] returns is never negative.  It is [0] when
    the end points coincide, and when the two points sampled between them
    lie on the straight line through the end points. *)
Theorem bending_values (nodes : list Node) (p0 p3 : R * R) (t0 t3 d : R) :
  _bending interp1d nodes p0 p3 t0 t3 = Ok d ->
  0 <= d /\
  (p3 = p0 -> d = 0) /\
  (forall p1 p2,
      get_position interp1d nodes ((2 * t0 + t3) / 3) = Ok p1 ->
      get_position interp1d nodes ((t0 + 2 * t3) / 3) = Ok p2 ->
      fst (vsub p1 p0) * snd (vsub p3 p0) - snd (vsub p1 p0) * fst (vsub p3 p0) = 0 ->
      fst (vsub p2 p0) * snd (vsub p3 p0) - snd (vsub p2 p0) * fst (vsub p3 p0) = 0 ->
      d = 0).
Proof.
  unfold _bending. exact_arith.
  destruct (Exact.eqb (vabs (vsub p3 p0)) 0) eqn:Ez.
  - intros E. injection E as <-. repeat split; try lra.
  - apply eqb_false in Ez.
    assert (Hne : p3 <> p0).
    { intros ->. apply Ez. destruct p0 as [a b].
      unfold vabs, vsub. cbn [fst snd]. exact_arith.
      rewrite !Rminus_diag. apply hypot_zero. }
    destruct (get_position interp1d nodes ((2 * t0 + t3) / 3)) as [p1 |];
      [| discriminate].
    destruct (get_position interp1d nodes ((t0 + 2 * t3) / 3)) as [p2 |];
      [| discriminate].
    cbn [bind].
    set (c1 := fst (vsub p1 p0) * snd (vsub p3 p0)
               - snd (vsub p1 p0) * fst (vsub p3 p0)).
    set (c2 := fst (vsub p2 p0) * snd (vsub p3 p0)
               - snd (vsub p2 p0) * fst (vsub p3 p0)).
    set (h := vabs (vsub p3 p0)) in *.
    destruct (Exact.ltb (Rabs (c1 / h - c2 / h)) (dec 1 5)) eqn:Eb.
    + intros E. injection E as <-.
      pose proof (Rabs_pos (c1 / h)). pose proof (Rabs_pos (c2 / h)).
      split; [lra |]. split; [intros; contradiction |].
      intros q1 q2 E1 E2 Hc1 Hc2.
      injection E1 as <-. injection E2 as <-. fold c1 in Hc1. fold c2 in Hc2.
      rewrite Hc1, Hc2. unfold Rdiv. rewrite !Rmult_0_l, Rabs_R0. lra.
    + apply ltb_false in Eb.
      unfold py_sqrt. exact_arith.
      match goal with
      | |- context [if ?c then Raise ValueError else _] => destruct c
      end; [discriminate |].
      cbn [bind]. rewrite !py_max_Rmax. intros E.
      split; [| split].
      * revert E.
        repeat match goal with
               | |- context [if ?c then _ else _] => destruct c
               end; intros E; injection E as <-;
          repeat (apply Rmax_case_strong; intros); try lra; apply Rabs_pos.
      * intros; contradiction.
      * intros q1 q2 E1 E2 Hc1 Hc2.
        injection E1 as <-. injection E2 as <-. fold c1 in Hc1. fold c2 in Hc2.
        rewrite Hc1, Hc2 in Eb. unfold Rdiv in Eb.
        rewrite !Rmult_0_l, Rminus_diag, Rabs_R0, dec_1_5 in Eb. lra.
Qed.

End Bending.

(** A line of one node at [(1, 1)], between the end points [(0, 0)] and
    [(2, 0)]. *)
Lemma bending_values_witness :
  let n : @Node R := mkNode (1, 1)%R None None (Some false) (Some 0%R) in
  exists d,
    _bending (fun _ _ t => Ok t) [n] (0, 0)%R (2, 0)%R 0%R 1%R = Ok d /\
    (0 <= d)%R.
Proof.
  intros n.
  destruct (_bending (fun _ _ t => Ok t) [n] (0, 0)%R (2, 0)%R 0%R 1%R)
    as [d | e] eqn:E.
  - exists d. split; [reflexivity |].
    apply (bending_values (fun _ _ t => Ok t) [n] (0, 0)%R (2, 0)%R 0%R 1%R d E).
  - exfalso. revert E. unfold _bending.
    destruct (neqb _ _); [discriminate |].
    change (get_position (fun _ _ t => Ok t) [n] ?t) with (Ok (node_p n)).
    cbn [bind]. destruct (nltb _ _); [discriminate |].
    unfold py_sqrt. destruct (nltb _ (lit 0)) eqn:Hneg.
    + exact_arith. apply ExactFacts.ltb_true in Hneg. cbn [powi] in Hneg.
      exact_arith.
      match type of Hneg with
      | (27 * (1 * ?a * ?a) + 1 * ?b * ?b < 0)%R =>
          set (A := a) in *; set (B := b) in *
      end.
      clearbody A B. nra.
    + cbn [bind]. discriminate.
Defined.

(* ================================================================= *)
(** ** The start path *)

Section StartpathExact.

Import ExactFacts ExactVectors.
Local Open Scope R_scope.

Lemma maximum_Rmax (a b : R) : maximum a b = Rmax a b.
Proof.
  unfold maximum. exact_arith.
  replace (Exact.eqb a a) with true by (symmetry; apply eqb_true; reflexivity).
  cbn [negb]. rewrite orb_false_r. unfold Rmax.
  destruct (Exact.leb b a) eqn:E.
  - apply leb_true in E. destruct (Rle_dec a b); [lra | reflexivity].
  - destruct (Rle_dec a b); [reflexivity |].
    assert (b <= a) by lra. apply leb_true in H. congruence.
Qed.

Lemma minimum_Rmin (a b : R) : minimum a b = Rmin a b.
Proof.
  unfold minimum. exact_arith.
  replace (Exact.eqb a a) with true by (symmetry; apply eqb_true; reflexivity).
  cbn [negb]. rewrite orb_false_r. unfold Rmin.
  destruct (Exact.leb a b) eqn:E.
  - apply leb_true in E. destruct (Rle_dec a b); [reflexivity | lra].
  - destruct (Rle_dec a b) as [L |]; [| reflexivity].
    apply leb_true in L. congruence.
Qed.

(** The two sample points of the difference quotient are distinct when
    [t] lies on the path's interval. *)
Lemma clip_apart (t0 t1 t : R) :
  t0 < t1 -> t0 <= t <= t1 ->
  let dt := (t1 - t0) * dec 1 6 in
  clip (t - dt) t0 t1 < clip (t + dt) t0 t1.
Proof.
  intros H01 Ht dt. unfold clip. rewrite !maximum_Rmax, !minimum_Rmin.
  assert (Hdt : 0 < dt) by (unfold dt; rewrite dec_1_6; lra).
  unfold Rmin, Rmax. repeat destruct (Rle_dec _ _); lra.
Qed.

(** X23: On a straight path [a + s b] the numerical derivative is [b], at every
    [t] of the path's interval. *)
Theorem dstartpath_affine (startpath : R -> result (R * R)) (a b : R * R)
    (t0 t1 t : R) :
  t0 < t1 -> t0 <= t <= t1 ->
  (forall s, startpath s = Ok (vadd a (vscale s b))) ->
  _dstartpath startpath t0 t1 t = Ok b.
Proof.
  intros H01 Ht Hpath. unfold _dstartpath. rewrite !Hpath. cbn [bind].
  pose proof (clip_apart t0 t1 t H01 Ht) as Hapart. cbv zeta in Hapart.
  exact_arith.
  set (tm := clip (t - (t1 - t0) * dec 1 6) t0 t1) in *.
  set (tp := clip (t + (t1 - t0) * dec 1 6) t0 t1) in *.
  destruct a as [a0 a1], b as [b0 b1].
  unfold vadd, vsub, vscale, vdivs. cbn [fst snd]. exact_arith.
  apply f_equal, f_equal2; field; lra.
Qed.

Lemma cross_bound (a b c d : R) :
  Rabs (a * d - b * c) <= Exact.hypot a b * Exact.hypot c d.
Proof.
  unfold Exact.hypot. rewrite <- sqrt_mult by nra.
  rewrite <- sqrt_Rsqr_abs. unfold Rsqr.
  assert (Hid : (a * a + b * b) * (c * c + d * d)
                = (a * d - b * c) * (a * d - b * c)
                  + (a * c + b * d) * (a * c + b * d)) by ring.
  apply sqrt_le_1.
  - apply Rle_0_sqr.
  - apply Rmult_le_pos; nra.
  - rewrite Hid. pose proof (Rle_0_sqr (a * c + b * d)) as Hsq.
    unfold Rsqr in Hsq. lra.
Qed.

Variable ext : @extended R.

(** X24: The field strength along the path is capped: with [Fmax >= 0], the
    value [_field_along_path] returns lies between [0] and [Fmax] times
    the length of the path's derivative. *)
Theorem field_along_path_capped (field : Field)
    (startpath : R -> result (R * R)) (t0 t1 Fmax : R)
    (F_rescale : option (R -> result R)) (t w : R) :
  0 <= Fmax ->
  _field_along_path ext field startpath t0 t1 Fmax F_rescale t = Ok w ->
  exists dpath,
    _dstartpath startpath t0 t1 t = Ok dpath /\
    0 <= w <= Fmax * vabs dpath.
Proof.
  intros HFmax. unfold _field_along_path.
  destruct (startpath t) as [xy |]; [| discriminate]. cbn [bind].
  match goal with
  | |- bind ?c _ = _ -> _ => destruct c as [[f0 f1] |]; [| discriminate]
  end.
  cbn [bind]. unfold vabs. cbn [fst snd]. exact_arith.
  pose proof (hypot_nonneg f0 f1) as Hn.
  assert (Hcap : exists g0 g1,
             (if Exact.ltb Fmax (Exact.hypot f0 f1)
              then c <- py_div Fmax (Exact.hypot f0 f1) ;; Ok (f0 * c, f1 * c)
              else Ok (f0, f1)) = Ok (g0, g1) /\
             Exact.hypot g0 g1 <= Fmax).
  { destruct (Exact.ltb Fmax (Exact.hypot f0 f1)) eqn:E.
    - apply ltb_true in E.
      unfold py_div. exact_arith.
      replace (Exact.eqb (Exact.hypot f0 f1) 0) with false
        by (symmetry; apply eqb_false; lra).
      cbn [bind]. do 2 eexists. split; [reflexivity |].
      rewrite (Rmult_comm f0), (Rmult_comm f1), hypot_scale.
      rewrite Rabs_pos_eq.
      + right. field. lra.
      + apply Rmult_le_pos; [lra |]. left. apply Rinv_0_lt_compat. lra.
    - apply ltb_false in E. do 2 eexists. split; [reflexivity | exact E]. }
  destruct Hcap as (g0 & g1 & -> & Hg). cbn [bind].
  destruct (_dstartpath startpath t0 t1 t) as [[d0 d1] |]; [| discriminate].
  cbn [bind fst snd]. intros E. injection E as <-.
  exists (d0, d1). split; [reflexivity |]. cbn [fst snd].
  split; [apply Rabs_pos |].
  pose proof (cross_bound g0 g1 d0 d1). pose proof (hypot_nonneg d0 d1).
  pose proof (hypot_nonneg g0 g1). nra.
Qed.

End StartpathExact.

Section StartpathRaises.

(** X25: Where the field vanishes on the path, a [Startpath] with an
    [F_rescale] divides by the field strength [0.]: [_field_along_path]
    raises [ZeroDivisionError] (in binary64, [F_rescale] returning a
    Python float). *)
Theorem field_along_path_zero_field (ext : @extended float)
    (field : Field) (startpath : float -> result (float * float))
    (t0 t1 Fmax : float) (rescale : float -> result float) (t : float)
    (xy : float * float) (s : float) :
  startpath t = Ok xy ->
  F ext field xy = (0, 0)%float ->
  rescale 0%float = Ok s ->
  _field_along_path ext field startpath t0 t1 Fmax (Some rescale) t
  = Raise ZeroDivisionError.
Proof.
  intros Hxy HF Hs. unfold _field_along_path. rewrite Hxy. cbn [bind].
  rewrite HF. change (vabs (0, 0)%float) with 0%float. rewrite Hs. reflexivity.
Qed.

End StartpathRaises.

(** The path [(s, 2 s)] on [[0, 1]], at [t = 1/2]. *)
Lemma dstartpath_affine_witness :
  _dstartpath (fun s => Ok (vadd (0, 0)%R (vscale s (1, 2)%R))) 0%R 1%R (/ 2)%R
  = Ok (1, 2)%R.
Proof.
  apply (dstartpath_affine _ (0, 0)%R (1, 2)%R); [lra | lra |].
  intros s. reflexivity.
Defined.

(** The same path in the homogeneous field [(3, 0)], capped at [Fmax = 1]. *)
Lemma field_along_path_capped_witness :
  let path : R -> result (R * R) := fun s => Ok (vadd (0, 0)%R (vscale s (1, 2)%R)) in
  exists w dpath,
    _field_along_path no_extended (mkField [homogeneous 3 0]%R) path
      0%R 1%R 1%R None (/ 2)%R = Ok w /\
    _dstartpath path 0%R 1%R (/ 2)%R = Ok dpath /\
    (0 <= w <= 1 * vabs dpath)%R.
Proof.
  intros path.
  destruct (_field_along_path no_extended (mkField [homogeneous 3 0]%R) path
              0%R 1%R 1%R None (/ 2)%R) as [w | e] eqn:E.
  - destruct (field_along_path_capped no_extended
                (mkField [homogeneous 3 0]%R) path 0%R 1%R 1%R None
                (/ 2)%R w) as (dpath & Hd & Hw); [lra | exact E |].
    exists w, dpath. repeat split; try assumption; lra.
  - exfalso. revert E. unfold _field_along_path, path.
    cbn [bind]. unfold py_div. exact_arith.
    destruct (Exact.ltb 1 _) eqn:Hgt.
    + destruct (Exact.eqb _ 0) eqn:Hz.
      * apply ExactFacts.eqb_true in Hz.
        apply ExactFacts.ltb_true in Hgt. rewrite Hz in Hgt. lra.
      * cbn [bind]. destruct (_dstartpath _ _ _ _) eqn:Hd; [discriminate |].
        revert Hd. unfold _dstartpath. cbn [bind]. discriminate.
    + cbn [bind]. destruct (_dstartpath _ _ _ _) eqn:Hd; [discriminate |].
      revert Hd. unfold _dstartpath. cbn [bind]. discriminate.
Defined.

(** A path through the origin in the empty field, with the identity as
    [F_rescale]. *)
Lemma field_along_path_zero_field_witness :
  _field_along_path no_extended (mkField []) (fun s => Ok (s, s)) 0%float 1%float
    1e4%float (Some (fun Fabs => Ok Fabs)) 0.5%float
  = Raise ZeroDivisionError.
Proof.
  apply (field_along_path_zero_field no_extended (mkField []) (fun s => Ok (s, s))
           0%float 1%float 1e4%float (fun Fabs => Ok Fabs) 0.5%float
           (0.5, 0.5)%float 0%float); reflexivity.
Defined.
